(** * ResearchHub: the PubMed search pipeline

    A shallow embedding of the search function of the application: record
    extraction ([parseArticles]) and de-duplication ([deduplicateArticles],
    with [normalizeString], [calculateSimilarity] and
    [levenshteinDistance]), and the properties the specification states
    about them; then the handler that puts the two together and the two
    network views that show the articles (the expansion of a node by its
    related articles, and the highlighting of the nodes around a node).

    JavaScript strings are sequences of UTF-16 code units.  The embedding
    uses Rocq's [string], whose characters are 8-bit: a character stands
    for the code unit of the same number, so the development covers the
    strings over U+0000..U+00FF (Latin-1).  On that range [toLowerCase],
    [\w], [\s], [.] and the [i] flag of regular expressions are the
    functions written out below. *)

From Stdlib Require Import Ascii String QArith Lia.
From stdpp Require Import base decidable option list gmap strings sets.

Set Warnings "-clear-no-such-hyp".
Local Open Scope nat_scope.

(** ** JavaScript string primitives *)

Module Js.

Definition code (c : ascii) : nat := nat_of_ascii c.

Definition between (lo hi n : nat) : bool := (lo <=? n) && (n <=? hi).

(** [A-Z], [a-z], [0-9] *)
Definition isUpper (c : ascii) : bool := between 65 90 (code c).
Definition isLower (c : ascii) : bool := between 97 122 (code c).
Definition isDigit (c : ascii) : bool := between 48 57 (code c).

(** [\w] is [A-Za-z0-9_] *)
Definition isWord (c : ascii) : bool :=
  isUpper c || isLower c || isDigit c || (code c =? 95).

(** [\s]: TAB, LF, VT, FF, CR, SPACE, NBSP (the members below U+0100);
    [String.prototype.trim] strips the same set. *)
Definition isSpace (c : ascii) : bool :=
  between 9 13 (code c) || (code c =? 32) || (code c =? 160).

(** [.] matches everything but the line terminators LF and CR. *)
Definition isDot (c : ascii) : bool :=
  negb ((code c =? 10) || (code c =? 13)).

(** [[\s\S]] *)
Definition isAny (c : ascii) : bool := true.

(** [[^>]] *)
Definition notGt (c : ascii) : bool := negb (code c =? 62).

(** One code unit of [String.prototype.toLowerCase]: A-Z and the Latin-1
    capitals U+00C0..U+00DE (without the multiplication sign U+00D7) move
    up by 32, everything else stays. *)
Definition lowerChar (c : ascii) : ascii :=
  let n := code c in
  if between 65 90 n || (between 192 222 n && negb (n =? 215))
  then ascii_of_nat (n + 32) else c.

Fixpoint toLowerCase (s : string) : string :=
  match s with
  | EmptyString => EmptyString
  | String c s' => String (lowerChar c) (toLowerCase s')
  end.

Fixpoint filter (keep : ascii → bool) (s : string) : string :=
  match s with
  | EmptyString => EmptyString
  | String c s' => if keep c then String c (filter keep s') else filter keep s'
  end.

(** [s.replace(/\s+/g, ' ')]: every maximal run of white space becomes one
    space; [inRun] tells that the previous code unit was white space. *)
Fixpoint collapseFrom (inRun : bool) (s : string) : string :=
  match s with
  | EmptyString => EmptyString
  | String c s' =>
      if isSpace c
      then if inRun then collapseFrom true s' else String " " (collapseFrom true s')
      else String c (collapseFrom false s')
  end.
Definition collapseSpaces (s : string) : string := collapseFrom false s.

Fixpoint trimStart (s : string) : string :=
  match s with
  | EmptyString => EmptyString
  | String c s' => if isSpace c then trimStart s' else s
  end.

Fixpoint trimEnd (s : string) : string :=
  match s with
  | EmptyString => EmptyString
  | String c s' =>
      match trimEnd s' with
      | EmptyString => if isSpace c then EmptyString else String c EmptyString
      | t => String c t
      end
  end.

Definition trim (s : string) : string := trimEnd (trimStart s).

(** [s.includes(sep)] and [s.split(sep)] for a separator of one code unit. *)
Fixpoint includes (sep : ascii) (s : string) : bool :=
  match s with
  | EmptyString => false
  | String c s' => if Ascii.eqb c sep then true else includes sep s'
  end.

Fixpoint split (sep : ascii) (s : string) : list string :=
  match s with
  | EmptyString => [EmptyString]
  | String c s' =>
      if Ascii.eqb c sep then EmptyString :: split sep s'
      else match split sep s' with
           | part :: parts => String c part :: parts
           | [] => [String c EmptyString]
           end
  end.

(** [s.slice(0, n)] *)
Fixpoint sliceTo (n : nat) (s : string) : string :=
  match n, s with
  | S n', String c s' => String c (sliceTo n' s')
  | _, _ => EmptyString
  end.

Fixpoint chars (s : string) : list ascii :=
  match s with
  | EmptyString => []
  | String c s' => c :: chars s'
  end.

End Js.

(** ** normalizeString *)

Definition normalizeString (str : string) : string :=
  Js.trim
    (Js.collapseSpaces
       (Js.filter (λ c, Js.isWord c || Js.isSpace c)
          (Js.toLowerCase str))).

(** ** levenshteinDistance and calculateSimilarity *)

(** [Math.min(a, b, c)] *)
Definition min3 (a b c : nat) : nat := Nat.min a (Nat.min b c).

(** The cells [matrix[i][1..]] of one row, left to right.  [up] holds the row
    above from column [j-1] on and [left] is [matrix[i][j-1]]. *)
Fixpoint fillRow (c2 : ascii) (str1 : list ascii) (up : list nat) (left : nat)
  : list nat :=
  match str1, up with
  | c1 :: str1', diag :: ((above :: _) as up') =>
      let cell :=
        if Ascii.eqb c2 c1 then diag
        else min3 (diag + 1) (left + 1) (above + 1) in
      cell :: fillRow c2 str1' up' cell
  | _, _ => []
  end.

(** Rows [i], [i+1], ... of the matrix, one per code unit of [str2]; every
    row starts with [matrix[i][0] = i]. *)
Fixpoint fillRows (str1 str2 : list ascii) (i : nat) (up : list nat)
  : list (list nat) :=
  match str2 with
  | [] => []
  | c2 :: str2' =>
      let row := i :: fillRow c2 str1 up i in
      row :: fillRows str1 str2' (S i) row
  end.

Definition matrix (str1 str2 : string) : list (list nat) :=
  let row0 := seq 0 (S (String.length str1)) in
  row0 :: fillRows (Js.chars str1) (Js.chars str2) 1 row0.

Definition levenshteinDistance (str1 str2 : string) : nat :=
  default 0 (matrix str1 str2 !! String.length str2
               ≫= λ row, row !! String.length str1).

(** [calculateSimilarity] divides two integers; the quotient is kept exact. *)
Definition calculateSimilarity (str1 str2 : string) : Q :=
  let longer :=
    if String.length str2 <? String.length str1 then str1 else str2 in
  let shorter :=
    if String.length str2 <? String.length str1 then str2 else str1 in
  if String.length longer =? 0 then 1%Q
  else
    let editDistance := levenshteinDistance longer shorter in
    Qmake (Z.of_nat (String.length longer) - Z.of_nat editDistance)
          (Pos.of_nat (String.length longer)).

(** [similarity > 0.85].  The source compares IEEE doubles: the quotient
    [p / q] rounded to nearest against the literal [0.85] rounded to
    nearest.  Rounding is monotone and [17 / 20] itself rounds to the
    literal, while any other [p / q] is at least [1 / (20 q)] away from
    [17 / 20], more than an ulp as long as the title has fewer than [2^48]
    code units; so the comparison of doubles decides the exact one. *)
Definition threshold : Q := Qmake 85 100.

Definition aboveThreshold (similarity : Q) : bool :=
  negb (Qle_bool similarity threshold).

(** ** Records *)

(** The object [parseArticles] pushes and [deduplicateArticles] reads.
    [doi] and [year] are [null] when the block has no such element. *)
Record article := Article {
  pmid : string;
  title : string;
  authors : list string;
  journal : string;
  pubDate : string;
  abstract : string;
  doi : option string;
  year : option string;
}.

Global Instance article_eq_dec : EqDecision article.
Proof. solve_decision. Defined.

(** ** deduplicateArticles *)

(** A JavaScript [Map] keeps its entries in insertion order; [set] on a key
    that is present replaces the value where it stands. *)
Abbreviation jsmap := (list (string * article)).

Definition mapHas (key : string) (m : jsmap) : bool :=
  bool_decide (key ∈ m.*1).

Fixpoint mapSet (key : string) (value : article) (m : jsmap) : jsmap :=
  match m with
  | [] => [(key, value)]
  | (k, v) :: m' =>
      if decide (k = key) then (key, value) :: m'
      else (k, v) :: mapSet key value m'
  end.

Definition mapValues (m : jsmap) : list article := m.*2.

(** [article.doi && article.doi.trim() !== ''] : the DOI that Priority 1
    uses, if there is one. *)
Definition usableDoi (a : article) : option string :=
  match doi a with
  | Some d => if decide (Js.trim d = "") then None else Some d
  | None => None
  end.

Definition normalizedTitleOf (a : article) : string :=
  normalizeString (title a).

(** [article.authors && article.authors.length > 0
       ? normalizeString(article.authors[0]) : ''] *)
Definition firstAuthorOf (a : article) : string :=
  match authors a with
  | first :: _ => normalizeString first
  | [] => ""
  end.

(** [article.year || ''] *)
Definition yearOf (a : article) : string :=
  match year a with
  | Some y => y
  | None => ""
  end.

Definition bar : ascii := "|"%char.

(** [`${normalizedTitle}|${firstAuthor}|${year}`] *)
Definition makeKey (normalizedTitle firstAuthor year : string) : string :=
  normalizedTitle +:+ "|" +:+ firstAuthor +:+ "|" +:+ year.

Definition compositeKeyOf (a : article) : string :=
  makeKey (normalizedTitleOf a) (firstAuthorOf a) (yearOf a).

(** The body of the scan over [uniqueMap.entries()] for one key: [true] when
    the entry makes the current record a duplicate.  A component that
    [split] does not deliver is [undefined] and equal to no string. *)
Definition fuzzyHit (normalizedTitle firstAuthor year key : string) : bool :=
  if Js.includes bar key then
    match Js.split bar key with
    | existingTitle :: existingAuthor :: existingYear :: _ =>
        if bool_decide (existingAuthor = firstAuthor)
           && bool_decide (existingYear = year)
        then aboveThreshold (calculateSimilarity normalizedTitle existingTitle)
        else false
    | _ => false
    end
  else false.

(** The scan itself: it stops at the first hit. *)
Fixpoint isDuplicate (normalizedTitle firstAuthor year : string) (entries : jsmap)
  : bool :=
  match entries with
  | [] => false
  | (key, existingArticle) :: rest =>
      if fuzzyHit normalizedTitle firstAuthor year key then true
      else isDuplicate normalizedTitle firstAuthor year rest
  end.

(** The two maps of the loop.  [doiMap] only ever maps a key to [true]: it
    is a set. *)
Record dedupState := DedupState {
  uniqueMap : jsmap;
  doiMap : gset string;
}.

(** One iteration of [for (const article of articles)]. *)
Definition dedupStep (st : dedupState) (a : article) : dedupState :=
  match usableDoi a with
  | Some d =>
      let normalizedDoi := normalizeString d in
      if bool_decide (normalizedDoi ∈ doiMap st) then st
      else DedupState (mapSet (pmid a) a (uniqueMap st))
                      ({[normalizedDoi]} ∪ doiMap st)
  | None =>
      let normalizedTitle := normalizedTitleOf a in
      let firstAuthor := firstAuthorOf a in
      let year := yearOf a in
      let compositeKey := makeKey normalizedTitle firstAuthor year in
      if mapHas compositeKey (uniqueMap st) then st
      else if isDuplicate normalizedTitle firstAuthor year (uniqueMap st) then st
      else DedupState (mapSet compositeKey a (uniqueMap st)) (doiMap st)
  end.

Definition dedupRun (st : dedupState) (articles : list article) : dedupState :=
  foldl dedupStep st articles.

Definition dedupInit : dedupState := DedupState [] ∅.

Definition deduplicateArticles (articles : list article) : list article :=
  mapValues (uniqueMap (dedupRun dedupInit articles)).

(** ** Regular expressions

    The patterns of [parseArticles] are sequences of literals, starred
    character classes (greedy or lazy) and capturing groups around a lazy
    star.  [matchHere] is the backtracking matcher of such a sequence at one
    position, with the [i] flag set; [search] is [String.prototype.match]
    without the [g] flag and [scan] the left-to-right pass behind [match]
    and [matchAll] with the [g] flag and behind [replace]. *)

Module Regex.

Inductive item :=
| Lit (text : string)
| Greedy (cls : ascii → bool)
| Lazy (cls : ascii → bool)
| Group (cls : ascii → bool).

(** Canonicalize of the [i] flag: the upper-case code unit, for a-z and
    for the Latin-1 small letters U+00E0..U+00FE (without the division
    sign U+00F7). *)
Definition canon (c : ascii) : ascii :=
  let n := Js.code c in
  if Js.between 97 122 n || (Js.between 224 254 n && negb (n =? 247))
  then ascii_of_nat (n - 32) else c.

Fixpoint stripPrefix (text s : string) : option string :=
  match text, s with
  | EmptyString, _ => Some s
  | String a text', String b s' =>
      if Ascii.eqb (canon a) (canon b) then stripPrefix text' s' else None
  | String _ _, EmptyString => None
  end.

(** The captures of the match and the input left after it. *)
Fixpoint matchHere (p : list item) (s : string)
  : option (list string * string) :=
  match p with
  | [] => Some ([], s)
  | Lit text :: p' =>
      match stripPrefix text s with
      | Some s' => matchHere p' s'
      | None => None
      end
  | Greedy cls :: p' =>
      (fix star (s : string) :=
         match s with
         | String c s' =>
             if cls c then
               match star s' with
               | Some r => Some r
               | None => matchHere p' s
               end
             else matchHere p' s
         | EmptyString => matchHere p' s
         end) s
  | Lazy cls :: p' =>
      (fix star (s : string) :=
         match matchHere p' s with
         | Some r => Some r
         | None =>
             match s with
             | String c s' => if cls c then star s' else None
             | EmptyString => None
             end
         end) s
  | Group cls :: p' =>
      (fix star (seen : string) (s : string) :=
         match matchHere p' s with
         | Some (captures, rest) => Some (String.rev seen :: captures, rest)
         | None =>
             match s with
             | String c s' => if cls c then star (String c seen) s' else None
             | EmptyString => None
             end
         end) EmptyString s
  end.

(** The leftmost match. *)
Fixpoint search (p : list item) (s : string) : option (list string * string) :=
  match matchHere p s with
  | Some r => Some r
  | None =>
      match s with
      | String _ s' => search p s'
      | EmptyString => None
      end
  end.

(** [m[n]] for [n = 1, 2, ...] of a match [m], or [null] without a match. *)
Definition group (n : nat) (m : option (list string * string)) : option string :=
  m ≫= λ r, r.1 !! (n - 1).

Inductive piece :=
| Hit (text : string) (captures : list string)
| Keep (c : ascii).

(** All matches from left to right, each search starting where the
    previous match ended ([skip] counts the code units of the current
    match still to pass); an empty match moves on by one code unit. *)
Fixpoint scan (p : list item) (skip : nat) (s : string) : list piece :=
  match s with
  | EmptyString =>
      match skip, matchHere p s with
      | 0, Some (captures, _) => [Hit EmptyString captures]
      | _, _ => []
      end
  | String c s' =>
      match skip with
      | S k => scan p k s'
      | 0 =>
          match matchHere p s with
          | Some (captures, rest) =>
              let n := String.length s - String.length rest in
              Hit (Js.sliceTo n s) captures
                :: (if n =? 0 then [Keep c] else []) ++ scan p (n - 1) s'
          | None => Keep c :: scan p 0 s'
          end
      end
  end.

(** [s.match(/p/g) || []] *)
Definition matchTexts (p : list item) (s : string) : list string :=
  omap (λ x, match x with Hit text _ => Some text | Keep _ => None end)
       (scan p 0 s).

(** [s.matchAll(/p/g)], the captures of every match *)
Definition matchAll (p : list item) (s : string) : list (list string) :=
  omap (λ x, match x with Hit _ captures => Some captures | Keep _ => None end)
       (scan p 0 s).

(** [s.replace(/p/g, '')] *)
Definition removeAll (p : list item) (s : string) : string :=
  foldr (λ x acc, match x with Hit _ _ => acc | Keep c => String c acc end)
        EmptyString (scan p 0 s).

End Regex.

(** ** parseArticles

    The function for the search and the function for related articles come
    with the same [parseArticles]; one of them also logs the blocks it
    skips. *)

Import Regex.

Definition dquote : string := String (ascii_of_nat 34) EmptyString.

Definition articlePattern : list item :=
  [Lit "<PubmedArticle>"; Lazy Js.isAny; Lit "</PubmedArticle>"].
Definition pmidPattern : list item :=
  [Lit "<PMID"; Greedy Js.notGt; Lit ">"; Group Js.isDot; Lit "</PMID>"].
Definition titlePattern : list item :=
  [Lit "<ArticleTitle>"; Group Js.isAny; Lit "</ArticleTitle>"].
Definition tagPattern : list item :=
  [Lit "<"; Greedy Js.notGt; Lit ">"].
Definition abstractPattern : list item :=
  [Lit "<AbstractText"; Greedy Js.notGt; Lit ">"; Group Js.isAny;
   Lit "</AbstractText>"].
Definition authorPattern : list item :=
  [Lit "<Author"; Greedy Js.notGt; Lit ">"; Lazy Js.isAny;
   Lit "<LastName>"; Group Js.isDot; Lit "</LastName>"; Lazy Js.isAny;
   Lit "<ForeName>"; Group Js.isDot; Lit "</ForeName>"; Lazy Js.isAny;
   Lit "</Author>"].
Definition journalPattern : list item :=
  [Lit "<Title>"; Group Js.isDot; Lit "</Title>"].
Definition yearPattern : list item :=
  [Lit "<PubDate>"; Lazy Js.isAny; Lit "<Year>"; Group Js.isDot; Lit "</Year>"].
Definition monthPattern : list item :=
  [Lit "<PubDate>"; Lazy Js.isAny; Lit "<Month>"; Group Js.isDot;
   Lit "</Month>"].
Definition doiPattern : list item :=
  [Lit ("<ArticleId IdType=" +:+ dquote +:+ "doi" +:+ dquote +:+ ">");
   Group Js.isDot; Lit "</ArticleId>"].

(** What one pass through the body of the loop over the blocks does: push a
    record, [continue] without one, or throw. *)
Inductive outcome :=
| Pushed (a : article)
| Skipped
| Thrown (error : string).

(** The body of the [try] for one block.  [match], [matchAll], [replace] and
    [slice] do not throw on a string, so no path ends in [Thrown]. *)
Definition parseBlock (articleXml : string) : outcome :=
  let pmidMatch := search pmidPattern articleXml in
  match group 1 pmidMatch with
  | None => Skipped
  | Some EmptyString => Skipped
  | Some pmid =>
      let titleMatch := search titlePattern articleXml in
      let title :=
        match group 1 titleMatch with
        | Some t => removeAll tagPattern t
        | None => "No title available"
        end in
      let abstractMatch := search abstractPattern articleXml in
      let abstract :=
        match group 1 abstractMatch with
        | Some t => removeAll tagPattern t
        | None => "No abstract available"
        end in
      let authors :=
        omap (λ m, match m with
                   | lastName :: foreName :: _ => Some (foreName +:+ " " +:+ lastName)
                   | _ => None
                   end)
             (matchAll authorPattern articleXml) in
      let journalMatch := search journalPattern articleXml in
      let journal := default "Unknown journal" (group 1 journalMatch) in
      let yearMatch := search yearPattern articleXml in
      let monthMatch := search monthPattern articleXml in
      let pubDate :=
        match group 1 yearMatch with
        | Some y =>
            match group 1 monthMatch with
            | Some m => (m +:+ " ") +:+ y
            | None => y
            end
        | None => "Unknown date"
        end in
      let doiMatch := search doiPattern articleXml in
      let doi := group 1 doiMatch in
      let year := group 1 yearMatch in
      Pushed {| pmid := pmid;
                title := title;
                authors := match authors with [] => ["Unknown authors"] | _ => authors end;
                journal := journal;
                pubDate := pubDate;
                abstract := Js.sliceTo 500 abstract;
                doi := doi;
                year := year |}
  end.

(** [for (const articleXml of articleBlocks) { try { ... } catch { ... } }]:
    a block that throws is logged and the loop goes on with the next one. *)
Fixpoint parseBlocks (body : string → outcome) (articleBlocks : list string)
    (articles : list article) : list article :=
  match articleBlocks with
  | [] => articles
  | articleXml :: rest =>
      match body articleXml with
      | Pushed a => parseBlocks body rest (articles ++ [a])
      | Skipped => parseBlocks body rest articles
      | Thrown _ => parseBlocks body rest articles
      end
  end.

Definition articleBlocksOf (xmlText : string) : list string :=
  matchTexts articlePattern xmlText.

Definition parseArticles (xmlText : string) : list article :=
  parseBlocks parseBlock (articleBlocksOf xmlText) [].

(** The identifier of a block: the first group of the first match of the
    PMID pattern, if it is not empty. *)
Definition blockPmid (articleXml : string) : option string :=
  match group 1 (search pmidPattern articleXml) with
  | Some EmptyString => None
  | r => r
  end.

(** The record an iteration adds to [articles], if any. *)
Definition pushedOf (o : outcome) : option article :=
  match o with
  | Pushed a => Some a
  | Skipped => None
  | Thrown _ => None
  end.

(** ** Reference functions used in the proofs *)

(** The recurrence the matrix is filled by, on the two words read from
    their last code unit backwards. *)
Fixpoint lev (a b : list ascii) : nat :=
  match a with
  | [] => length b
  | x :: a' =>
      (fix inner (b : list ascii) : nat :=
         match b with
         | [] => S (length a')
         | y :: b' =>
             if Ascii.eqb x y then lev a' b'
             else min3 (lev a' b' + 1) (inner b' + 1) (lev a' b + 1)
         end) b
  end.

(** [p], [c1 :: p], [c2 :: c1 :: p], ...: the prefixes of [s], reversed,
    on top of [p]. *)
Fixpoint rprefixes (p s : list ascii) : list (list ascii) :=
  p :: match s with
       | [] => []
       | c :: s' => rprefixes (c :: p) s'
       end.

(** What survives [normalizeString]: word characters and the space. *)
Definition keyChar (c : ascii) : bool := Js.isWord c || Ascii.eqb c " ".

Fixpoint allChars (P : ascii → bool) (s : string) : bool :=
  match s with
  | EmptyString => true
  | String c s' => P c && allChars P s'
  end.

(** The alphabet of normalized strings: a-z, 0-9, the underscore and the
    space. *)
Definition normChar (c : ascii) : bool :=
  Js.isLower c || Js.isDigit c || (Js.code c =? 95) || (Js.code c =? 32).

(** No white space next to white space; [prev] tells that the code unit
    before was white space. *)
Fixpoint noDouble (prev : bool) (s : string) : bool :=
  match s with
  | EmptyString => true
  | String c s' =>
      if Js.isSpace c then negb prev && noDouble true s' else noDouble false s'
  end.

(** The same, and the last code unit is not white space. *)
Fixpoint singleSpaced (prev : bool) (s : string) : bool :=
  match s with
  | EmptyString => negb prev
  | String c s' =>
      if Js.isSpace c then negb prev && singleSpaced true s'
      else singleSpaced false s'
  end.

(** White space only as single code units between two others. *)
Definition internalSpaces (s : string) : bool :=
  match s with
  | EmptyString => true
  | _ => singleSpaced true s
  end.

(** ** The loop invariant of deduplicateArticles *)

(** The normalized DOI of a record that Priority 1 handles. *)
Definition normDoi (a : article) : option string :=
  normalizeString <$> usableDoi a.

(** [isDuplicate], read off the keys alone. *)
Definition hitAmong (a : article) (keys : list string) : bool :=
  existsb (fuzzyHit (normalizedTitleOf a) (firstAuthorOf a) (yearOf a)) keys.

(** How an entry of [uniqueMap] relates to the keys that were in the map
    before it: a record with a DOI sits under its [pmid]; a record without
    one sits under its composite key, and the scan over the earlier keys
    found nothing. *)
Definition entryOk (earlier : list string) (key : string) (value : article) : Prop :=
  match usableDoi value with
  | Some _ => key = pmid value
  | None => key = compositeKeyOf value ∧ hitAmong value earlier = false
  end.

Fixpoint entriesOk (earlier : list string) (m : jsmap) : Prop :=
  match m with
  | [] => True
  | (key, value) :: m' =>
      entryOk earlier key value ∧ entriesOk (earlier ++ [key]) m'
  end.

(** The invariant of the loop of [deduplicateArticles]. *)
Record dedupInv (st : dedupState) : Prop := DedupInv {
  inv_keys : NoDup (uniqueMap st).*1;
  inv_entries : entriesOk [] (uniqueMap st);
  inv_dois : NoDup (omap normDoi (uniqueMap st).*2);
  inv_seen : ∀ d, d ∈ omap normDoi (uniqueMap st).*2 → d ∈ doiMap st;
}.

(** The five ways through the loop body. *)
Inductive stepCase (st : dedupState) (a : article) : Prop :=
| DoiSeen d :
    usableDoi a = Some d → normalizeString d ∈ doiMap st →
    dedupStep st a = st → stepCase st a
| DoiNew d :
    usableDoi a = Some d → normalizeString d ∉ doiMap st →
    dedupStep st a
    = DedupState (mapSet (pmid a) a (uniqueMap st))
                 ({[normalizeString d]} ∪ doiMap st) →
    stepCase st a
| KeySeen :
    usableDoi a = None → compositeKeyOf a ∈ (uniqueMap st).*1 →
    dedupStep st a = st → stepCase st a
| FuzzySeen :
    usableDoi a = None → compositeKeyOf a ∉ (uniqueMap st).*1 →
    hitAmong a (uniqueMap st).*1 = true →
    dedupStep st a = st → stepCase st a
| Fresh :
    usableDoi a = None → compositeKeyOf a ∉ (uniqueMap st).*1 →
    hitAmong a (uniqueMap st).*1 = false →
    dedupStep st a
    = DedupState (uniqueMap st ++ [(compositeKeyOf a, a)]) (doiMap st) →
    stepCase st a.

(** The normalized DOIs of the records of a map. *)
Definition seenDois (m : jsmap) : gset string := list_to_set (omap normDoi m.*2).

(** Identifiers that cannot be taken for a composite key: neither the
    [pmid] nor the year holds the separator. *)
Definition plainIds (r : article) : bool :=
  negb (Js.includes bar (pmid r)) && negb (Js.includes bar (yearOf r)).

(** [similarity > 0.85] for the normalized titles of the current record
    [b] and an accepted record [a]. *)
Definition similarTitles (b a : article) : bool :=
  aboveThreshold (calculateSimilarity (normalizedTitleOf b) (normalizedTitleOf a)).

(** The records of a list whose DOI normalizes to [d]. *)
Definition withDoi (d : string) (l : list article) : list article :=
  filter (λ r, normDoi r = Some d) l.

(** ** Sample records *)

Module Sample.

Definition record (pmid title : string) (authors : list string)
    (year doi : option string) : article :=
  {| pmid := pmid; title := title; authors := authors;
     journal := "Unknown journal"; pubDate := "Unknown date";
     abstract := "No abstract available"; doi := doi; year := year |}.

(** The four records of the end-to-end example. *)
Definition studyA := record "1" "Study A" ["Unknown authors"] None (Some "10.1/X").
Definition studyADup :=
  record "2" "Study A (dup)" ["Unknown authors"] None (Some "10.1/x").
Definition trial := record "3" "A Large Trial" ["Smith"] (Some "2020") None.
Definition trialDot := record "4" "A Large Trial." ["Smith"] (Some "2020") None.

(** Two records whose DOI is a single space. *)
Definition blankAlpha := record "11" "Alpha" ["Ann Lee"] (Some "2019") (Some " ").
Definition blankBeta := record "12" "Beta" ["Bo Chen"] (Some "2021") (Some " ").

(** The third record of the example again, with a blank DOI. *)
Definition blankTrial := record "5" "A Large Trial" ["Smith"] (Some "2020") (Some " ").

(** The third record of the example again, with a DOI of its own. *)
Definition doiTrial :=
  record "6" "A Large Trial" ["Smith"] (Some "2020") (Some "10.1/trial").

(** Two DOIs under one [pmid], and the first DOI again under another. *)
Definition first := record "21" "First" ["Ann Lee"] (Some "2019") (Some "10.1/a").
Definition second := record "21" "Second" ["Bo Chen"] (Some "2021") (Some "10.1/b").
Definition firstAgain :=
  record "22" "First" ["Ann Lee"] (Some "2019") (Some "10.1/A").

(** Three titles in a chain: each is close to the next one, the ends are
    not close to each other. *)
Definition drug0 := record "31" "Study of drug 000000" ["Smith"] (Some "2020") None.
Definition drug1 := record "32" "Study of drug 000011" ["Smith"] (Some "2020") None.
Definition drug2 := record "33" "Study of drug 001111" ["Smith"] (Some "2020") None.
Definition other := record "34" "Outcomes after surgery" ["Smith"] (Some "2020") None.

(** A payload of three blocks; the second has no PMID element. *)
Definition xmlThree : string :=
  "<PubmedArticleSet>"
  +:+ "<PubmedArticle><PMID>111</PMID><ArticleTitle>One</ArticleTitle></PubmedArticle>"
  +:+ "<PubmedArticle><ArticleTitle>No identifier</ArticleTitle></PubmedArticle>"
  +:+ "<PubmedArticle><PMID>333</PMID><Year>2020</Year></PubmedArticle>"
  +:+ "</PubmedArticleSet>".

(** A block whose title holds tags and a bare [>]. *)
Definition xmlTags : string :=
  "<PubmedArticle><PMID>1</PMID>"
  +:+ "<ArticleTitle>Role of <i>p53</i> in <sub>x</sub> > y</ArticleTitle>"
  +:+ "</PubmedArticle>".

(** A loop body that throws on the block ["bad"]. *)
Definition throwing (articleXml : string) : outcome :=
  if decide (articleXml = "bad") then Thrown "TypeError"
  else Pushed (record articleXml "t" [] None None).

End Sample.

(** ** Definitions for the further properties *)

(** Some code unit of the string is a word character. *)
Fixpoint hasWord (s : string) : bool :=
  match s with
  | EmptyString => false
  | String c s' => Js.isWord c || hasWord s'
  end.

(** The key under which [deduplicateArticles] files a record. *)
Definition recordKey (a : article) : string :=
  match usableDoi a with
  | Some _ => pmid a
  | None => compositeKeyOf a
  end.

(** The record would be skipped in this state: its normalized DOI is in
    [doiMap], or its composite key is a key of [uniqueMap], or the scan
    over the keys hits. *)
Definition seenBy (st : dedupState) (a : article) : Prop :=
  match usableDoi a with
  | Some d => normalizeString d ∈ doiMap st
  | None =>
      compositeKeyOf a ∈ (uniqueMap st).*1
      ∨ hitAmong a (uniqueMap st).*1 = true
  end.

(** The loop of a capturing group, as a function of its own: [k] matches
    the rest of the pattern and [seen] holds the code units taken so far,
    last first. *)
Fixpoint groupStar (cls : ascii → bool)
    (k : string → option (list string * string)) (seen s : string)
  : option (list string * string) :=
  match k s with
  | Some (captures, rest) => Some (String.rev seen :: captures, rest)
  | None =>
      match s with
      | String c s' => if cls c then groupStar cls k (String c seen) s' else None
      | EmptyString => None
      end
  end.

(** Every capturing group of the pattern is over the class [cls]. *)
Definition groupsOver (cls : ascii → bool) (p : list Regex.item) : Prop :=
  Forall (λ i, match i with Regex.Group c => c = cls | _ => True end) p.

(** The code units [replace] keeps. *)
Definition kept (pieces : list Regex.piece) : string :=
  foldr (λ x acc, match x with
                  | Regex.Hit _ _ => acc
                  | Regex.Keep c => String c acc
                  end)
        EmptyString pieces.

(** No [<] of the string has a [>] after it. *)
Fixpoint noTag (s : string) : bool :=
  match s with
  | EmptyString => true
  | String c s' =>
      negb ((Js.code c =? 60) && Js.includes ">" s') && noTag s'
  end.

(** The texts of the matches among the pieces of a pass. *)
Definition hitTexts (pieces : list Regex.piece) : list string :=
  omap (λ x, match x with
             | Regex.Hit text _ => Some text
             | Regex.Keep _ => None
             end) pieces.

(** ** The search function

    What the handler answers once the two requests have come back: the
    list of identifiers of the search and the payload of the fetch.  With
    no identifier the payload is not looked at. *)
Definition searchArticles (pmids : list string) (xmlText : string) : list article :=
  match pmids with
  | [] => []
  | _ :: _ =>
      let articles := parseArticles xmlText in
      let uniqueArticles := deduplicateArticles articles in
      uniqueArticles
  end.

(** ** The network view

    The state of the view that loads related articles on a click: the
    articles, the nodes already expanded (a [Set], kept as the list of its
    members in insertion order) and the links, each with the identifiers of
    its two ends. *)

Module Network.

Record graph := Graph {
  allArticles : list article;
  expandedNodes : list string;
  allLinks : list (string * string);
}.

(** The state after the articles of a search have come in. *)
Definition reset (articles : list article) : graph :=
  {| allArticles := articles; expandedNodes := []; allLinks := [] |}.

(** [new Set([...prev, pmid])] *)
Definition setAdd (x : string) (s : list string) : list string :=
  if decide (x ∈ s) then s else s ++ [x].

(** The articles drawn: at most 20, the expanded ones first. *)
Definition visibleArticles (g : graph) : list article :=
  if length (allArticles g) <=? 20 then allArticles g
  else
    let expandedPmids := expandedNodes g in
    let selectedArticles :=
      filter (λ a, pmid a ∈ expandedPmids) (allArticles g) in
    let selectedArticles :=
      if length selectedArticles <? 20 then
        let remaining := filter (λ a, pmid a ∉ expandedPmids) (allArticles g) in
        selectedArticles ++ take (20 - length selectedArticles) remaining
      else selectedArticles in
    take 20 selectedArticles.

(** The links drawn: those between two visible articles. *)
Definition visibleLinks (g : graph) : list (string * string) :=
  let visiblePmidsSet := pmid <$> visibleArticles g in
  filter (λ link, link.1 ∈ visiblePmidsSet ∧ link.2 ∈ visiblePmidsSet)
         (allLinks g).

(** [fetchRelatedArticles], as the change of the state once the request has
    come back, no other update having come in between: [reply] is [None]
    when the request failed and else the articles of the answer. *)
Definition fetchRelatedArticles (clicked : string)
    (reply : option (list article)) (g : graph) : graph :=
  if decide (clicked ∈ expandedNodes g) then g
  else
    match reply with
    | None => g
    | Some relatedArticles =>
        match relatedArticles with
        | [] => g
        | _ :: _ =>
            let existingPmids := pmid <$> allArticles g in
            let newArticles :=
              filter (λ a, pmid a ∉ existingPmids) relatedArticles in
            match newArticles with
            | [] =>
                {| allArticles := allArticles g;
                   expandedNodes := setAdd clicked (expandedNodes g);
                   allLinks := allLinks g |}
            | _ :: _ =>
                let newLinks := (λ a, (clicked, pmid a)) <$> newArticles in
                {| allArticles := allArticles g ++ newArticles;
                   expandedNodes := setAdd clicked (expandedNodes g);
                   allLinks := allLinks g ++ newLinks |}
            end
        end
    end.

(** Every link joins two articles of the state. *)
Definition linksJoinArticles (g : graph) : Prop :=
  ∀ link, link ∈ allLinks g →
    link.1 ∈ pmid <$> allArticles g ∧ link.2 ∈ pmid <$> allArticles g.

(** The states of the view for the articles of a search: the clicks are on
    drawn nodes, each answered before the next. *)
Inductive reachable (articles : list article) : graph → Prop :=
| reachable_reset : reachable articles (reset articles)
| reachable_click g clicked reply :
    reachable articles g →
    clicked ∈ pmid <$> visibleArticles g →
    reachable articles (fetchRelatedArticles clicked reply g).

End Network.

(** ** Path highlighting in the citation network

    [findPath] of the second network view: a breadth-first walk from a
    node along the links, to the depth the slider gives (1 to 4). *)

Module Paths.

(** A link, by the identifiers of its two ends: [typeof link.source ===
    'string' ? link.source : link.source.id], and the same for the
    target. *)
Definition link : Type := string * string.

(** The variables of [findPath]; the three sets are read through [has]
    only. *)
Record walk := Walk {
  visited : gset string;
  queue : list (string * nat);
  pathNodes : gset string;
  pathLinks : gset string;
}.

(** A string in a condition: the empty string counts as false. *)
Definition truthy (s : string) : bool := bool_decide (s ≠ EmptyString).

(** [connectedNode] and [linkId] for one link, [None] when both stay
    [null]. *)
Definition connected (nodeId : string) (visited : gset string) (l : link)
    : option (string * string) :=
  let sourceId := l.1 in
  let targetId := l.2 in
  if bool_decide (sourceId = nodeId) && bool_decide (targetId ∉ visited) then
    Some (targetId, sourceId +:+ "-" +:+ targetId)
  else if bool_decide (targetId = nodeId) && bool_decide (sourceId ∉ visited) then
    Some (sourceId, sourceId +:+ "-" +:+ targetId)
  else None.

(** The body of [allLinks.forEach]. *)
Definition visitLink (nodeId : string) (depth maxDepth : nat)
    (st : walk) (l : link) : walk :=
  match connected nodeId (visited st) l with
  | Some (connectedNode, linkId) =>
      if truthy connectedNode && truthy linkId && (depth <? maxDepth) then
        {| visited := visited st;
           queue := queue st ++ [(connectedNode, depth + 1)];
           pathNodes := pathNodes st ∪ {[connectedNode]};
           pathLinks := pathLinks st ∪ {[linkId]} |}
      else st
  | None => st
  end.

(** One turn of the [while] loop, [(nodeId, depth)] being the entry taken
    from the front of the queue and [rest] what stays in it. *)
Definition turn (allLinks : list link) (maxDepth : nat)
    (nodeId : string) (depth : nat) (rest : list (string * nat))
    (st : walk) : walk :=
  if bool_decide (nodeId ∈ visited st) || (maxDepth <? depth) then
    {| visited := visited st; queue := rest;
       pathNodes := pathNodes st; pathLinks := pathLinks st |}
  else
    foldl (visitLink nodeId depth maxDepth)
          {| visited := visited st ∪ {[nodeId]}; queue := rest;
             pathNodes := pathNodes st ∪ {[nodeId]};
             pathLinks := pathLinks st |}
          allLinks.

(** The loop, for at most [fuel] turns. *)
Fixpoint loop (fuel : nat) (allLinks : list link) (maxDepth : nat)
    (st : walk) : option walk :=
  match queue st with
  | [] => Some st
  | (nodeId, depth) :: rest =>
      match fuel with
      | 0 => None
      | S fuel =>
          loop fuel allLinks maxDepth (turn allLinks maxDepth nodeId depth rest st)
      end
  end.

Definition start (startId : string) : walk :=
  {| visited := ∅; queue := [(startId, 0)]; pathNodes := ∅; pathLinks := ∅ |}.

(** [findPath], with the turns it can need: a link puts an entry in the
    queue at most once for each of its ends. *)
Definition findPath (allLinks : list link) (startId : string)
    (maxDepth : nat) : option (gset string * gset string) :=
  st ← loop (2 * length allLinks + 1) allLinks maxDepth (start startId);
  Some (pathNodes st, pathLinks st).

(** [within allLinks startId k v]: [v] is [k] links away from [startId],
    along links taken in either direction, through non-empty
    identifiers. *)
Inductive within (allLinks : list link) (startId : string)
    : nat → string → Prop :=
| within_start : within allLinks startId 0 startId
| within_step k u v :
    within allLinks startId k u →
    v ≠ EmptyString →
    (u, v) ∈ allLinks ∨ (v, u) ∈ allLinks →
    within allLinks startId (S k) v.

(** What a link adds when [nodeId] is visited. *)
Definition found (nodeId : string) (depth maxDepth : nat)
    (visited : gset string) (l : link) : option (string * string) :=
  c ← connected nodeId visited l;
  if truthy c.1 && truthy c.2 && (depth <? maxDepth) then Some c else None.

(** The ends of a link that are still to visit. *)
Definition pending (visited : gset string) (l : link) : nat :=
  (if bool_decide (l.1 ∈ visited) then 0 else 1)
  + (if bool_decide (l.2 ∈ visited) then 0 else 1).

Definition potential (allLinks : list link) (st : walk) : nat :=
  length (queue st) + sum_list (pending (visited st) <$> allLinks).

(** The queue holds entries of depth [d], then entries of depth [d + 1]. *)
Definition levels (d : nat) (q : list (string * nat)) : Prop :=
  ∃ qa qb, q = qa ++ qb
    ∧ Forall (λ e, e.2 = d) qa ∧ Forall (λ e, e.2 = S d) qb.

Definition adjacent (allLinks : list link) (u v : string) : Prop :=
  v ≠ EmptyString ∧ ((u, v) ∈ allLinks ∨ (v, u) ∈ allLinks).

(** The invariant of the loop while entries of depth [d] are taken. *)
Record searching (allLinks : list link) (startId : string)
    (maxDepth d : nat) (st : walk) : Prop := {
  inv_levels : levels d (queue st);
  inv_queue : ∀ v k, (v, k) ∈ queue st →
    k ≤ maxDepth ∧ within allLinks startId k v;
  inv_visited : ∀ v, v ∈ visited st →
    ∃ k, k ≤ maxDepth ∧ within allLinks startId k v;
  inv_below : ∀ j v, j < d → within allLinks startId j v → v ∈ visited st;
  inv_level : ∀ v, within allLinks startId d v →
    v ∈ visited st ∨ (v, d) ∈ queue st;
  inv_next : d < maxDepth → ∀ u v, u ∈ visited st → adjacent allLinks u v →
    v ∈ visited st ∨ (v, d) ∈ queue st ∨ (v, S d) ∈ queue st;
  inv_nodes_lo : ∀ v, v ∈ visited st → v ∈ pathNodes st;
  inv_nodes_hi : ∀ v, v ∈ pathNodes st → v ∈ visited st ∨ v ∈ (queue st).*1;
  inv_links : ∀ id, id ∈ pathLinks st →
    ∃ s t, (s, t) ∈ allLinks ∧ id = s +:+ "-" +:+ t ∧ s ≠ t
           ∧ s ∈ pathNodes st ∧ t ∈ pathNodes st;
}.

End Paths.

(** A small network: 1 - 2 - 3 - 4. *)
Definition citations : list Paths.link := [("1", "2"); ("3", "2"); ("3", "4")].
(** * Properties *)

(** ** Edit distance *)

Section Levenshtein.

Lemma lev_nil_r a : lev a [] = length a.
Proof. by destruct a. Qed.

Lemma lev_cons x a y b :
  lev (x :: a) (y :: b) =
    if Ascii.eqb x y then lev a b
    else min3 (lev a b + 1) (lev (x :: a) b + 1) (lev a (y :: b) + 1).
Proof. reflexivity. Qed.

Lemma min3_swap a b c : min3 a b c = min3 a c b.
Proof. unfold min3. lia. Qed.

Lemma lev_sym a b : lev a b = lev b a.
Proof.
  revert b. induction a as [|x a IHa]; intros b.
  - by rewrite lev_nil_r.
  - induction b as [|y b IHb]; [done|].
    rewrite !lev_cons, (Ascii.eqb_sym y x), IHb, (IHa b), (IHa (y :: b)).
    by rewrite min3_swap.
Qed.

Lemma lev_zero a b : lev a b = 0 ↔ a = b.
Proof.
  revert b. induction a as [|x a IHa]; intros [|y b]; simpl lev; try done.
  fold (lev (x :: a) b).
  destruct (Ascii.eqb x y) eqn:E.
  - apply Ascii.eqb_eq in E as ->. rewrite IHa. split; congruence.
  - apply Ascii.eqb_neq in E. unfold min3. split; [lia|congruence].
Qed.

Lemma rprefixes_length p s : length (rprefixes p s) = S (length s).
Proof. revert p. induction s as [|c s IH]; intros p; simpl; [done|]. by rewrite IH. Qed.

Lemma rprefixes_last p s :
  rprefixes p s !! length s = Some (rev_append s p).
Proof. revert p. induction s as [|c s IH]; intros p; simpl; [done|]. apply IH. Qed.

Lemma row0_spec p s :
  seq (length p) (S (length s)) = lev [] <$> rprefixes p s.
Proof.
  revert p. induction s as [|c s IH]; intros p; [done|].
  change (length p :: seq (S (length p)) (S (length s))
          = length p :: (lev [] <$> rprefixes (c :: p) s)).
  f_equal. apply (IH (c :: p)).
Qed.

Lemma rprefixes_head p s : ∃ qs, rprefixes p s = p :: qs.
Proof. destruct s; simpl; eauto. Qed.

Lemma fillRow_spec c2 a s p :
  fillRow c2 s (lev a <$> rprefixes p s) (lev (c2 :: a) p)
  = lev (c2 :: a) <$> tail (rprefixes p s).
Proof.
  revert p. induction s as [|c1 s IH]; intros p; [done|].
  specialize (IH (c1 :: p)).
  change (rprefixes p (c1 :: s)) with (p :: rprefixes (c1 :: p) s).
  destruct (rprefixes_head (c1 :: p) s) as [qs E]. rewrite E in *.
  cbn [fmap list_fmap fillRow tail] in *.
  rewrite <- lev_cons. by rewrite IH.
Qed.

Lemma fillRows_spec s1 s2 a :
  fillRows s1 s2 (S (length a)) (lev a <$> rprefixes [] s1)
  = (λ b, lev b <$> rprefixes [] s1) <$> tail (rprefixes a s2).
Proof.
  revert a. induction s2 as [|c2 s2 IH]; intros a; [done|].
  simpl rprefixes. simpl tail. cbn [fillRows].
  assert (S (length a) :: fillRow c2 s1 (lev a <$> rprefixes [] s1) (S (length a))
          = lev (c2 :: a) <$> rprefixes [] s1) as ->.
  { pose proof (fillRow_spec c2 a s1 []) as H. rewrite lev_nil_r in H.
    simpl length in H. rewrite H. by destruct s1. }
  pose proof (IH (c2 :: a)) as H. simpl length in H. rewrite H.
  by destruct s2.
Qed.

Lemma chars_length s : length (Js.chars s) = String.length s.
Proof. induction s; simpl; congruence. Qed.

Lemma chars_inj s t : Js.chars s = Js.chars t → s = t.
Proof.
  revert t. induction s as [|c s IH]; intros [|d t] H; simplify_eq/=; [done|].
  f_equal. by apply IH.
Qed.

Lemma matrix_spec str1 str2 :
  matrix str1 str2
  = (λ b, lev b <$> rprefixes [] (Js.chars str1)) <$> rprefixes [] (Js.chars str2).
Proof.
  unfold matrix. rewrite <- chars_length.
  pose proof (row0_spec [] (Js.chars str1)) as H0. simpl length in H0.
  rewrite H0.
  pose proof (fillRows_spec (Js.chars str1) (Js.chars str2) []) as H.
  simpl length in H. rewrite H.
  by destruct (Js.chars str2).
Qed.

Lemma levenshteinDistance_lev str1 str2 :
  levenshteinDistance str1 str2 = lev (rev (Js.chars str2)) (rev (Js.chars str1)).
Proof.
  unfold levenshteinDistance. rewrite matrix_spec, <- !chars_length.
  rewrite list_lookup_fmap, rprefixes_last. simpl.
  rewrite list_lookup_fmap, rprefixes_last. simpl.
  by rewrite !rev_append_rev, !app_nil_r.
Qed.

End Levenshtein.

(** C7.  [levenshteinDistance] is symmetric, yields a natural number that is
    [0] exactly for equal strings, and the distance between "kitten" and
    "sitting" is [3]. *)
Theorem levenshteinDistance_metric :
  (∀ a b : string, levenshteinDistance a b = levenshteinDistance b a)
  ∧ (∀ a b : string, 0 ≤ levenshteinDistance a b
                     ∧ (levenshteinDistance a b = 0 ↔ a = b))
  ∧ levenshteinDistance "kitten" "sitting" = 3.
Proof.
  split; [|split].
  - intros a b. rewrite !levenshteinDistance_lev. apply lev_sym.
  - intros a b. split; [lia|]. rewrite levenshteinDistance_lev, lev_zero. split.
    + intros H. apply (f_equal (@rev ascii)) in H. rewrite !rev_involutive in H.
      symmetry. by apply chars_inj.
    + by intros ->.
  - reflexivity.
Qed.

(** ** Normalized strings and composite keys *)

Section Keys.

Lemma allChars_filter P s : allChars P (Js.filter P s) = true.
Proof.
  induction s as [|c s IH]; simpl; [done|].
  destruct (P c) eqn:E; simpl; [by rewrite E|done].
Qed.

Lemma allChars_collapse inRun s :
  allChars (λ c, Js.isWord c || Js.isSpace c) s = true →
  allChars keyChar (Js.collapseFrom inRun s) = true.
Proof.
  revert inRun. induction s as [|c s IH]; intros inRun H; simpl in *; [done|].
  apply andb_true_iff in H as [Hc Hs].
  destruct (Js.isSpace c) eqn:E.
  - destruct inRun; simpl; auto.
  - simpl. rewrite orb_false_r in Hc. unfold keyChar. rewrite Hc. simpl. auto.
Qed.

Lemma allChars_trimStart P s :
  allChars P s = true → allChars P (Js.trimStart s) = true.
Proof.
  induction s as [|c s IH]; simpl; [done|]. intros H.
  destruct (Js.isSpace c); [|done].
  apply andb_true_iff in H as [_ H]. auto.
Qed.

Lemma allChars_trimEnd P s :
  allChars P s = true → allChars P (Js.trimEnd s) = true.
Proof.
  induction s as [|c s IH]; simpl; [done|]. intros H.
  apply andb_true_iff in H as [Hc H]. specialize (IH H).
  destruct (Js.trimEnd s) as [|d t].
  - destruct (Js.isSpace c); simpl; [done|]. by rewrite Hc.
  - simpl in *. by rewrite Hc, IH.
Qed.

Lemma normalizeString_keyChars s : allChars keyChar (normalizeString s) = true.
Proof.
  unfold normalizeString, Js.trim, Js.collapseSpaces.
  apply allChars_trimEnd, allChars_trimStart, allChars_collapse, allChars_filter.
Qed.

Lemma keyChars_no_bar s : allChars keyChar s = true → Js.includes bar s = false.
Proof.
  induction s as [|c s IH]; simpl; [done|]. intros H.
  apply andb_true_iff in H as [Hc H]. rewrite (IH H).
  destruct (Ascii.eqb c bar) eqn:E; [|done].
  apply Ascii.eqb_eq in E as ->. by vm_compute in Hc.
Qed.

Lemma normalizeString_no_bar s : Js.includes bar (normalizeString s) = false.
Proof. apply keyChars_no_bar, normalizeString_keyChars. Qed.

Lemma firstAuthorOf_no_bar a : Js.includes bar (firstAuthorOf a) = false.
Proof.
  unfold firstAuthorOf. destruct (authors a); [done|].
  apply normalizeString_no_bar.
Qed.

Lemma includes_app_bar s t : Js.includes bar (s +:+ String bar t) = true.
Proof. induction s as [|c s IH]; simpl; [done|]. by destruct (Ascii.eqb c bar). Qed.

Lemma split_no_bar s : Js.includes bar s = false → Js.split bar s = [s].
Proof.
  induction s as [|c s IH]; simpl; [done|].
  destruct (Ascii.eqb c bar); [done|]. intros H. by rewrite (IH H).
Qed.

Lemma split_app_bar s t :
  Js.includes bar s = false →
  Js.split bar (s +:+ String bar t) = s :: Js.split bar t.
Proof.
  induction s as [|c s IH]; simpl; [done|].
  destruct (Ascii.eqb c bar); [done|]. intros H. by rewrite (IH H).
Qed.

Lemma split_head s : ∃ part parts, Js.split bar s = part :: parts.
Proof.
  induction s as [|c s (part & parts & IH)]; simpl; [eauto|].
  destruct (Ascii.eqb c bar); [eauto|]. rewrite IH. eauto.
Qed.

Lemma app_bar_inj s s' t t' :
  Js.includes bar s = false → Js.includes bar s' = false →
  s +:+ String bar t = s' +:+ String bar t' → s = s' ∧ t = t'.
Proof.
  revert s'. induction s as [|c s IH]; intros [|c' s'] Hs Hs' E; simpl in *.
  - by simplify_eq.
  - injection E as <- _. by rewrite Ascii.eqb_refl in Hs'.
  - injection E as -> _. by rewrite Ascii.eqb_refl in Hs.
  - injection E as -> E.
    destruct (Ascii.eqb c' bar); [done|].
    by destruct (IH s' Hs Hs' E) as [-> ->].
Qed.

Lemma makeKey_unfold t a y :
  makeKey t a y = t +:+ String bar (a +:+ String bar y).
Proof. reflexivity. Qed.

Lemma makeKey_includes t a y : Js.includes bar (makeKey t a y) = true.
Proof. rewrite makeKey_unfold. apply includes_app_bar. Qed.

Lemma makeKey_inj t a y t' a' y' :
  Js.includes bar t = false → Js.includes bar a = false →
  Js.includes bar t' = false → Js.includes bar a' = false →
  makeKey t a y = makeKey t' a' y' → t = t' ∧ a = a' ∧ y = y'.
Proof.
  intros Ht Ha Ht' Ha' E. rewrite !makeKey_unfold in E.
  apply app_bar_inj in E as [-> E]; [|done..].
  apply app_bar_inj in E as [-> ->]; done.
Qed.

(** On a composite key the scan recovers title and first author, and the
    year up to its first [|]. *)
Lemma fuzzyHit_makeKey nt fa yr t a y :
  Js.includes bar t = false → Js.includes bar a = false →
  fuzzyHit nt fa yr (makeKey t a y) =
    match Js.split bar y with
    | y0 :: _ =>
        if bool_decide (a = fa) && bool_decide (y0 = yr)
        then aboveThreshold (calculateSimilarity nt t) else false
    | [] => false
    end.
Proof.
  intros Ht Ha. unfold fuzzyHit. rewrite makeKey_includes.
  rewrite makeKey_unfold, !split_app_bar by done.
  by destruct (split_head y) as (y0 & ys & ->).
Qed.

Lemma fuzzyHit_no_bar nt fa yr key :
  Js.includes bar key = false → fuzzyHit nt fa yr key = false.
Proof. intros H. unfold fuzzyHit. by rewrite H. Qed.

Lemma compositeKeyOf_inj a b :
  compositeKeyOf a = compositeKeyOf b →
  normalizedTitleOf a = normalizedTitleOf b
  ∧ firstAuthorOf a = firstAuthorOf b ∧ yearOf a = yearOf b.
Proof.
  unfold compositeKeyOf, normalizedTitleOf.
  apply makeKey_inj;
    first [apply normalizeString_no_bar | apply firstAuthorOf_no_bar].
Qed.

End Keys.

(** ** The insertion-ordered map *)

Section JsMap.

Lemma mapHas_true key (m : jsmap) : mapHas key m = true ↔ key ∈ m.*1.
Proof. unfold mapHas. apply bool_decide_eq_true. Qed.

Lemma mapHas_false key (m : jsmap) : mapHas key m = false ↔ key ∉ m.*1.
Proof. unfold mapHas. apply bool_decide_eq_false. Qed.

Lemma mapSet_new key value (m : jsmap) :
  key ∉ m.*1 → mapSet key value m = m ++ [(key, value)].
Proof.
  induction m as [|[k v] m IH]; csimpl; [done|]. intros H.
  apply not_elem_of_cons in H as [Hne H].
  destruct (decide (k = key)); [congruence|]. by rewrite IH.
Qed.

Lemma mapSet_keys_old key value (m : jsmap) :
  key ∈ m.*1 → (mapSet key value m).*1 = m.*1.
Proof.
  induction m as [|[k v] m IH]; csimpl; [by intros ?%elem_of_nil|]. intros H.
  destruct (decide (k = key)) as [->|Hne]; [done|].
  apply elem_of_cons in H as [?|H]; [congruence|]. csimpl. by rewrite IH.
Qed.

Lemma mapSet_elem key value (m : jsmap) : (key, value) ∈ mapSet key value m.
Proof.
  induction m as [|[k v] m IH]; csimpl; [apply list_elem_of_here|].
  destruct (decide (k = key)); [apply list_elem_of_here|].
  by apply list_elem_of_further.
Qed.

Lemma mapSet_other key value k v (m : jsmap) :
  k ≠ key → (k, v) ∈ m → (k, v) ∈ mapSet key value m.
Proof.
  intros Hne. induction m as [|[k' v'] m IH]; csimpl;
    [by intros ?%elem_of_nil|]. intros H.
  destruct (decide (k' = key)) as [->|].
  - apply elem_of_cons in H as [?|H]; [congruence|].
    by apply list_elem_of_further.
  - apply elem_of_cons in H as [->|H]; [apply list_elem_of_here|].
    apply list_elem_of_further; auto.
Qed.

Lemma mapSet_values_submseteq key value (m : jsmap) :
  (mapSet key value m).*2 ⊆+ value :: m.*2.
Proof.
  induction m as [|[k v] m IH]; csimpl; [done|].
  destruct (decide (k = key)); csimpl.
  - apply submseteq_skip, submseteq_cons. done.
  - etrans; [apply submseteq_skip, IH|]. by rewrite (Permutation_swap v value).
Qed.

Lemma isDuplicate_hitAmong a (m : jsmap) :
  isDuplicate (normalizedTitleOf a) (firstAuthorOf a) (yearOf a) m
  = hitAmong a m.*1.
Proof.
  unfold hitAmong. induction m as [|[k v] m IH]; csimpl; [done|].
  by destruct (fuzzyHit _ _ _ k).
Qed.

End JsMap.

(** ** One iteration of the de-duplication loop *)

Section Step.

Lemma normDoi_Some a d : usableDoi a = Some d → normDoi a = Some (normalizeString d).
Proof. unfold normDoi. by intros ->. Qed.

Lemma normDoi_None a : usableDoi a = None → normDoi a = None.
Proof. unfold normDoi. by intros ->. Qed.

Lemma dedupStep_doi_seen st a d :
  usableDoi a = Some d → normalizeString d ∈ doiMap st → dedupStep st a = st.
Proof. intros E H. unfold dedupStep. rewrite E. by rewrite bool_decide_eq_true_2. Qed.

Lemma dedupStep_doi_new st a d :
  usableDoi a = Some d → normalizeString d ∉ doiMap st →
  dedupStep st a
  = DedupState (mapSet (pmid a) a (uniqueMap st))
               ({[normalizeString d]} ∪ doiMap st).
Proof. intros E H. unfold dedupStep. rewrite E. by rewrite bool_decide_eq_false_2. Qed.

Lemma dedupStep_key_seen st a :
  usableDoi a = None → compositeKeyOf a ∈ (uniqueMap st).*1 →
  dedupStep st a = st.
Proof.
  intros E H. unfold dedupStep. rewrite E.
  apply mapHas_true in H. unfold compositeKeyOf in H. by rewrite H.
Qed.

Lemma dedupStep_fuzzy st a :
  usableDoi a = None → hitAmong a (uniqueMap st).*1 = true →
  dedupStep st a = st.
Proof.
  intros E H. unfold dedupStep. rewrite E, isDuplicate_hitAmong, H.
  by destruct (mapHas _ _).
Qed.

Lemma dedupStep_fresh st a :
  usableDoi a = None → compositeKeyOf a ∉ (uniqueMap st).*1 →
  hitAmong a (uniqueMap st).*1 = false →
  dedupStep st a
  = DedupState (uniqueMap st ++ [(compositeKeyOf a, a)]) (doiMap st).
Proof.
  intros E Hk H. unfold dedupStep. rewrite E, isDuplicate_hitAmong, H.
  pose proof Hk as Hk'. apply mapHas_false in Hk'.
  unfold compositeKeyOf in *. rewrite Hk'. by rewrite mapSet_new.
Qed.

Lemma dedupStep_cases st a : stepCase st a.
Proof.
  destruct (usableDoi a) as [d|] eqn:E.
  - destruct (decide (normalizeString d ∈ doiMap st)).
    + eapply DoiSeen; eauto using dedupStep_doi_seen.
    + eapply DoiNew; eauto using dedupStep_doi_new.
  - destruct (decide (compositeKeyOf a ∈ (uniqueMap st).*1)).
    + eapply KeySeen; eauto using dedupStep_key_seen.
    + destruct (hitAmong a (uniqueMap st).*1) eqn:Hh.
      * eapply FuzzySeen; eauto using dedupStep_fuzzy.
      * eapply Fresh; eauto using dedupStep_fresh.
Qed.

Lemma dedupRun_app st xs ys :
  dedupRun st (xs ++ ys) = dedupRun (dedupRun st xs) ys.
Proof. apply foldl_app. Qed.

Lemma dedupRun_cons st x xs : dedupRun st (x :: xs) = dedupRun (dedupStep st x) xs.
Proof. reflexivity. Qed.

Lemma dedupRun_snoc st xs x : dedupRun st (xs ++ [x]) = dedupStep (dedupRun st xs) x.
Proof. by rewrite dedupRun_app. Qed.

(** A record whose iteration leaves the state alone can be taken out of
    the input. *)
Lemma dropped_record pre b post :
  dedupStep (dedupRun dedupInit pre) b = dedupRun dedupInit pre →
  deduplicateArticles (pre ++ b :: post) = deduplicateArticles (pre ++ post).
Proof.
  intros H. unfold deduplicateArticles.
  by rewrite !dedupRun_app, dedupRun_cons, H.
Qed.

End Step.

(** ** The loop invariant *)

Section Invariant.

Lemma entriesOk_app ks (m : jsmap) k v :
  entriesOk ks (m ++ [(k, v)]) ↔ entriesOk ks m ∧ entryOk (ks ++ m.*1) k v.
Proof.
  revert ks. induction m as [|[k' v'] m IH]; intros ks; csimpl.
  - rewrite app_nil_r. tauto.
  - rewrite IH, <- app_assoc. simpl. tauto.
Qed.

Lemma entriesOk_mapSet_doi ks (m : jsmap) a :
  is_Some (usableDoi a) → entriesOk ks m → entriesOk ks (mapSet (pmid a) a m).
Proof.
  intros [d Hd]. revert ks. induction m as [|[k v] m IH]; intros ks; csimpl.
  - intros _. split; [|done]. unfold entryOk. by rewrite Hd.
  - intros [Hk Hm]. destruct (decide (k = pmid a)) as [->|]; csimpl.
    + split; [|done]. unfold entryOk. by rewrite Hd.
    + split; [done|]. by apply IH.
Qed.

Lemma entriesOk_key ks (m : jsmap) k v :
  entriesOk ks m → (k, v) ∈ m →
  k = match usableDoi v with Some _ => pmid v | None => compositeKeyOf v end.
Proof.
  revert ks. induction m as [|[k' v'] m IH]; intros ks; csimpl.
  - by intros _ ?%elem_of_nil.
  - intros [Hk Hm] [E|H]%elem_of_cons; [|by eapply IH].
    simplify_eq. unfold entryOk in Hk. destruct (usableDoi v'); tauto.
Qed.

Lemma omap_submseteq {A B} (f : A → option B) (l k : list A) :
  l ⊆+ k → omap f l ⊆+ omap f k.
Proof.
  induction 1 as [|x l k _ IH|x y l|x l k _ IH|l k1 k2 _ IH1 _ IH2]; csimpl.
  - done.
  - destruct (f x); [by apply submseteq_skip|done].
  - destruct (f x), (f y); try done. apply submseteq_swap.
  - destruct (f x); [by apply submseteq_cons|done].
  - by etrans.
Qed.

Lemma submseteq_NoDup {A} (l k : list A) : l ⊆+ k → NoDup k → NoDup l.
Proof.
  intros (l' & Hsub & Hperm)%submseteq_sublist_l Hk.
  rewrite <- Hperm in Hk. by eapply sublist_NoDup.
Qed.

Lemma mapSet_dois_elem key a (m : jsmap) d :
  d ∈ omap normDoi (mapSet key a m).*2 →
  normDoi a = Some d ∨ d ∈ omap normDoi m.*2.
Proof.
  rewrite !list_elem_of_omap. intros (x & Hx & Hd).
  pose proof (mapSet_values_submseteq key a m) as Hsub.
  apply (elem_of_submseteq _ _ _ Hx) in Hsub.
  apply elem_of_cons in Hsub as [->|Hsub]; eauto.
Qed.

Lemma mapSet_dois_NoDup key a (m : jsmap) :
  (∀ d, normDoi a = Some d → d ∉ omap normDoi m.*2) →
  NoDup (omap normDoi m.*2) → NoDup (omap normDoi (mapSet key a m).*2).
Proof.
  intros Hnew Hnd.
  assert (NoDup (omap normDoi (a :: m.*2))) as Hall.
  { csimpl. destruct (normDoi a) as [d|] eqn:E; [|done].
    apply NoDup_cons. auto. }
  eapply submseteq_NoDup; [|exact Hall].
  apply omap_submseteq, mapSet_values_submseteq.
Qed.

Lemma dedupInv_init : dedupInv dedupInit.
Proof. split; simpl; try constructor. by intros d ?%elem_of_nil. Qed.

Lemma dedupInv_step st a : dedupInv st → dedupInv (dedupStep st a).
Proof.
  intros [Hk He Hd Hs].
  destruct (dedupStep_cases st a) as [d E Hin ->|d E Hnew ->|E Hin ->|E _ _ ->|E Hkey Hhit ->];
    try (by split).
  - pose proof (normDoi_Some _ _ E) as En. split; simpl.
    + destruct (decide (pmid a ∈ (uniqueMap st).*1)).
      * by rewrite mapSet_keys_old.
      * rewrite mapSet_new, fmap_app by done. simpl.
        apply NoDup_app. repeat split; [done| |apply NoDup_singleton].
        intros x Hx ->%list_elem_of_singleton. done.
    + apply entriesOk_mapSet_doi; eauto.
    + apply mapSet_dois_NoDup; [|done].
      intros d' Hd' Hin. rewrite En in Hd'. simplify_eq. auto.
    + intros d' [Hd'|Hd']%mapSet_dois_elem.
      * rewrite En in Hd'. simplify_eq. set_solver.
      * set_solver.
  - pose proof (normDoi_None _ E) as En. split; simpl.
    + rewrite fmap_app. simpl.
      apply NoDup_app. repeat split; [done| |apply NoDup_singleton].
      intros x Hx ->%list_elem_of_singleton. done.
    + apply entriesOk_app. split; [done|]. unfold entryOk. by rewrite E.
    + rewrite fmap_app, omap_app. simpl. rewrite En. simpl. by rewrite app_nil_r.
    + rewrite fmap_app, omap_app. simpl. rewrite En. simpl. by rewrite app_nil_r.
Qed.

Lemma dedupInv_run st xs : dedupInv st → dedupInv (dedupRun st xs).
Proof.
  revert st. induction xs as [|x xs IH]; intros st H; [done|].
  rewrite dedupRun_cons. by apply IH, dedupInv_step.
Qed.

(** What the loop keeps is a part of what it read. *)
Lemma dedupStep_values st a :
  (uniqueMap (dedupStep st a)).*2 ⊆+ a :: (uniqueMap st).*2.
Proof.
  destruct (dedupStep_cases st a) as [d E Hin ->|d E Hnew ->|E Hin ->|E _ _ ->|E Hkey Hhit ->];
    try (by apply submseteq_cons); simpl.
  - apply mapSet_values_submseteq.
  - rewrite fmap_app. simpl. by rewrite <- Permutation_cons_append.
Qed.

Lemma dedupRun_values st xs :
  (uniqueMap (dedupRun st xs)).*2 ⊆+ (uniqueMap st).*2 ++ xs.
Proof.
  revert st. induction xs as [|x xs IH]; intros st.
  - by rewrite app_nil_r.
  - rewrite dedupRun_cons. etrans; [apply IH|].
    etrans; [apply submseteq_skips_r, dedupStep_values|].
    apply Permutation_submseteq. simpl. apply Permutation_middle.
Qed.

(** The normalized DOIs seen so far. *)
Lemma dedupStep_doiMap st a :
  doiMap (dedupStep st a) = doiMap st ∪ list_to_set (omap normDoi [a]).
Proof.
  destruct (dedupStep_cases st a) as [d E Hin ->|d E Hnew ->|E Hin ->|E _ _ ->|E Hkey Hhit ->];
    simpl; rewrite ?(normDoi_Some _ _ E), ?(normDoi_None _ E); simpl; set_solver.
Qed.

Lemma dedupRun_doiMap st xs :
  doiMap (dedupRun st xs) = doiMap st ∪ list_to_set (omap normDoi xs).
Proof.
  revert st. induction xs as [|x xs IH]; intros st.
  - simpl. set_solver.
  - rewrite dedupRun_cons, IH, dedupStep_doiMap.
    change (x :: xs) with ([x] ++ xs). rewrite omap_app. set_solver.
Qed.

End Invariant.

(** ** The output is part of the input *)

(** C10.  Every record of the output of [deduplicateArticles] is a record of
    the input, unchanged, each position of the input is used at most once
    (the output is a sub-multiset of the input), and the output is not
    longer than the input. *)
Theorem deduplicateArticles_part_of_input (articles : list article) :
  deduplicateArticles articles ⊆+ articles
  ∧ (∀ r, r ∈ deduplicateArticles articles → r ∈ articles)
  ∧ length (deduplicateArticles articles) ≤ length articles.
Proof.
  assert (deduplicateArticles articles ⊆+ articles) as H.
  { unfold deduplicateArticles, mapValues.
    apply (dedupRun_values dedupInit articles). }
  split; [done|split].
  - intros r Hr. by eapply elem_of_submseteq.
  - by apply submseteq_length.
Qed.

(** ** Running the loop on its own output *)

Section Idempotence.

Lemma seenDois_snoc_doi (m : jsmap) k v d :
  usableDoi v = Some d →
  seenDois (m ++ [(k, v)]) = {[normalizeString d]} ∪ seenDois m.
Proof.
  intros E. unfold seenDois. rewrite fmap_app, omap_app. csimpl.
  rewrite (normDoi_Some _ _ E). simpl. set_solver.
Qed.

Lemma seenDois_snoc_none (m : jsmap) k v :
  usableDoi v = None → seenDois (m ++ [(k, v)]) = seenDois m.
Proof.
  intros E. unfold seenDois. rewrite fmap_app, omap_app. csimpl.
  rewrite (normDoi_None _ E). simpl. by rewrite app_nil_r.
Qed.

(** Feeding the values of a well-formed map back in, in order, rebuilds
    the map entry by entry. *)
Lemma dedupRun_rebuild (m2 m1 : jsmap) :
  NoDup (m1 ++ m2).*1 →
  NoDup (omap normDoi (m1 ++ m2).*2) →
  entriesOk m1.*1 m2 →
  dedupRun (DedupState m1 (seenDois m1)) m2.*2
  = DedupState (m1 ++ m2) (seenDois (m1 ++ m2)).
Proof.
  revert m1. induction m2 as [|[k v] m2 IH]; intros m1 Hk Hd Hok.
  { by rewrite app_nil_r. }
  destruct Hok as [Hkv Hok].
  assert (k ∉ m1.*1) as Hfresh.
  { rewrite fmap_app in Hk. apply NoDup_app in Hk as (_ & Hk & _).
    intros Hin. apply (Hk _ Hin). csimpl. apply list_elem_of_here. }
  rewrite fmap_cons, dedupRun_cons. simpl snd.
  assert (dedupStep (DedupState m1 (seenDois m1)) v
          = DedupState (m1 ++ [(k, v)]) (seenDois (m1 ++ [(k, v)]))) as ->.
  { unfold entryOk in Hkv. destruct (usableDoi v) as [d|] eqn:E.
    - subst k. rewrite (dedupStep_doi_new _ _ d); simpl; [| done |].
      + by rewrite mapSet_new, (seenDois_snoc_doi _ _ _ d).
      + unfold seenDois. rewrite elem_of_list_to_set.
        rewrite fmap_app, omap_app in Hd. apply NoDup_app in Hd as (_ & Hd & _).
        intros Hin. apply (Hd _ Hin). csimpl.
        rewrite (normDoi_Some _ _ E). apply list_elem_of_here.
    - destruct Hkv as [-> Hhit].
      rewrite dedupStep_fresh; simpl; [|done..].
      by rewrite seenDois_snoc_none. }
  rewrite IH.
  - by rewrite <- app_assoc.
  - by rewrite <- app_assoc.
  - by rewrite <- app_assoc.
  - by rewrite fmap_app.
Qed.

End Idempotence.

(** C4.  [deduplicateArticles] is idempotent: a second pass returns the
    list of the first pass itself, so in particular the same multiset of
    identifier fields. *)
Theorem deduplicateArticles_idempotent (xs : list article) :
  deduplicateArticles (deduplicateArticles xs) = deduplicateArticles xs
  ∧ pmid <$> deduplicateArticles (deduplicateArticles xs)
    ≡ₚ pmid <$> deduplicateArticles xs
  ∧ doi <$> deduplicateArticles (deduplicateArticles xs)
    ≡ₚ doi <$> deduplicateArticles xs.
Proof.
  assert (deduplicateArticles (deduplicateArticles xs) = deduplicateArticles xs) as H.
  { unfold deduplicateArticles, mapValues.
    destruct (dedupInv_run dedupInit xs dedupInv_init) as [Hk He Hd _].
    pose proof (dedupRun_rebuild (uniqueMap (dedupRun dedupInit xs)) [] Hk Hd He) as H.
    change (DedupState [] (seenDois [])) with dedupInit in H.
    by rewrite H. }
  by rewrite H.
Qed.

(** ** Accepted records stay, later duplicates go *)

Section Accepted.

Lemma entry_value (m : jsmap) k v : (k, v) ∈ m → v ∈ m.*2.
Proof. intros H. apply list_elem_of_fmap. by exists (k, v). Qed.

Lemma entry_key (m : jsmap) k v : (k, v) ∈ m → k ∈ m.*1.
Proof. intros H. apply list_elem_of_fmap. by exists (k, v). Qed.

Lemma value_entry (m : jsmap) v : v ∈ m.*2 → ∃ k, (k, v) ∈ m.
Proof. intros ([k v'] & -> & H)%list_elem_of_fmap. eauto. Qed.

Lemma entry_persists_step st a k v :
  (k, v) ∈ uniqueMap st → (is_Some (usableDoi a) → pmid a ≠ k) →
  (k, v) ∈ uniqueMap (dedupStep st a).
Proof.
  intros Hin Hne.
  destruct (dedupStep_cases st a) as [d E _ ->|d E _ ->|E _ ->|E _ _ ->|E _ _ ->];
    try done; simpl.
  - apply mapSet_other; [|done]. intros ->. by apply Hne.
  - apply elem_of_app. by left.
Qed.

Lemma entry_persists st xs k v :
  (k, v) ∈ uniqueMap st →
  (∀ y, y ∈ xs → is_Some (usableDoi y) → pmid y ≠ k) →
  (k, v) ∈ uniqueMap (dedupRun st xs).
Proof.
  revert st. induction xs as [|x xs IH]; intros st Hin Hne; [done|].
  rewrite dedupRun_cons. apply IH.
  - apply entry_persists_step; [done|]. apply Hne, list_elem_of_here.
  - intros y Hy. by apply Hne, list_elem_of_further.
Qed.

(** A record with a DOI not seen before enters the map under its [pmid]
    and stays until a later record with a DOI takes the same [pmid]. *)
Lemma new_doi_kept pre a post d :
  usableDoi a = Some d →
  normalizeString d ∉ doiMap (dedupRun dedupInit pre) →
  (∀ y, y ∈ post → is_Some (usableDoi y) → pmid y ≠ pmid a) →
  a ∈ deduplicateArticles (pre ++ a :: post).
Proof.
  intros E Hnew Hpost. unfold deduplicateArticles, mapValues.
  rewrite dedupRun_app, dedupRun_cons.
  apply (entry_value _ (pmid a)), entry_persists; [|done].
  rewrite (dedupStep_doi_new _ _ d) by done. apply mapSet_elem.
Qed.

(** A record whose normalized DOI was seen before is skipped. *)
Lemma seen_doi_dropped pre b post d :
  usableDoi b = Some d →
  normalizeString d ∈ doiMap (dedupRun dedupInit pre) →
  deduplicateArticles (pre ++ b :: post) = deduplicateArticles (pre ++ post).
Proof. intros E H. by apply dropped_record, (dedupStep_doi_seen _ _ d). Qed.

Lemma doi_seen_after pre a d :
  a ∈ pre → usableDoi a = Some d →
  normalizeString d ∈ doiMap (dedupRun dedupInit pre).
Proof.
  intros Hin E. rewrite dedupRun_doiMap. apply elem_of_union_r.
  apply elem_of_list_to_set, list_elem_of_omap.
  exists a. split; [done|]. by apply normDoi_Some.
Qed.

Lemma withDoi_none {A} (f : A → option string) d (l : list A) :
  d ∉ omap f l → filter (λ x, f x = Some d) l = [].
Proof.
  induction l as [|x l IH]; [done|]. csimpl. intros H.
  rewrite filter_cons. destruct (decide (f x = Some d)) as [E|E].
  - rewrite E in H. simpl in H. by apply not_elem_of_cons in H as [? _].
  - apply IH. destruct (f x); [|done]. by apply not_elem_of_cons in H as [_ ?].
Qed.

Lemma withDoi_at_most_one {A} (f : A → option string) d (l : list A) :
  NoDup (omap f l) → length (filter (λ x, f x = Some d) l) ≤ 1.
Proof.
  induction l as [|x l IH]; [simpl; lia|]. csimpl. intros H.
  rewrite filter_cons. destruct (decide (f x = Some d)) as [E|E].
  - rewrite E in H. simpl in H. apply NoDup_cons in H as [H _].
    rewrite (withDoi_none f d l H). simpl. lia.
  - apply IH. destruct (f x); [|done]. by apply NoDup_cons in H as [_ ?].
Qed.

Lemma output_one_per_doi xs d : length (withDoi d (deduplicateArticles xs)) ≤ 1.
Proof.
  unfold withDoi, deduplicateArticles, mapValues.
  apply withDoi_at_most_one.
  by destruct (dedupInv_run dedupInit xs dedupInv_init).
Qed.

Lemma output_only_one xs a d :
  a ∈ deduplicateArticles xs → normDoi a = Some d →
  withDoi d (deduplicateArticles xs) = [a].
Proof.
  intros Hin E. pose proof (output_one_per_doi xs d) as Hlen.
  assert (a ∈ withDoi d (deduplicateArticles xs)) as Ha.
  { unfold withDoi. by apply list_elem_of_filter. }
  destruct (withDoi d (deduplicateArticles xs)) as [|x [|y l]]; simpl in Hlen.
  - by apply elem_of_nil in Ha.
  - by apply list_elem_of_singleton in Ha as ->.
  - lia.
Qed.

End Accepted.

(** ** Priority 1: records with a DOI *)

(** C2, as the code has it.  Among records whose DOI is usable (not blank
    after trimming), a record whose normalized DOI equals that of an
    earlier record is skipped, whatever its other fields: the output is the
    one of the input without it.  The output never holds two records with
    that normalized DOI; and when the earlier record is the first with this
    DOI and no later record with a DOI reuses its [pmid], the earlier record
    is the one the output holds. *)
Theorem same_doi_collapses pre a mid b post da db :
  usableDoi a = Some da → usableDoi b = Some db →
  normalizeString da = normalizeString db →
  let articles := pre ++ a :: mid ++ b :: post in
  deduplicateArticles articles = deduplicateArticles (pre ++ a :: mid ++ post)
  ∧ length (withDoi (normalizeString da) (deduplicateArticles articles)) ≤ 1
  ∧ (normalizeString da ∉ doiMap (dedupRun dedupInit pre) →
     (∀ y, y ∈ mid ++ post → is_Some (usableDoi y) → pmid y ≠ pmid a) →
     withDoi (normalizeString da) (deduplicateArticles articles) = [a]).
Proof.
  intros Ea Eb Eq articles.
  assert (deduplicateArticles articles = deduplicateArticles (pre ++ a :: mid ++ post)) as Hdrop.
  { unfold articles.
    replace (pre ++ a :: mid ++ b :: post) with ((pre ++ a :: mid) ++ b :: post)
      by (by rewrite <- app_assoc).
    replace (pre ++ a :: mid ++ post) with ((pre ++ a :: mid) ++ post)
      by (by rewrite <- app_assoc).
    apply (seen_doi_dropped _ _ _ db); [done|]. rewrite <- Eq.
    apply (doi_seen_after _ a); [|done].
    apply elem_of_app. right. apply list_elem_of_here. }
  split; [done|]. split; [apply output_one_per_doi|].
  intros Hnew Hpmid. apply output_only_one; [|by apply normDoi_Some].
  rewrite Hdrop. by apply (new_doi_kept _ _ _ da).
Qed.

Lemma same_doi_collapses_witness :
  deduplicateArticles [Sample.studyA; Sample.trial; Sample.studyADup; Sample.trialDot]
  = deduplicateArticles [Sample.studyA; Sample.trial; Sample.trialDot]
  ∧ withDoi "101x"
      (deduplicateArticles
         [Sample.studyA; Sample.trial; Sample.studyADup; Sample.trialDot])
    = [Sample.studyA].
Proof.
  destruct (same_doi_collapses [] Sample.studyA [Sample.trial] Sample.studyADup
              [Sample.trialDot] "10.1/X" "10.1/x"
              eq_refl eq_refl eq_refl) as (H1 & _ & H3).
  split; [exact H1|]. apply H3.
  - apply not_elem_of_empty.
  - intros y Hy [d Hd]. simpl in Hy.
    apply elem_of_cons in Hy as [->|Hy]; [discriminate|].
    apply list_elem_of_singleton in Hy as ->. discriminate.
Defined.

(** C2 as stated fails twice.  Two records whose DOI is a single space have
    non-empty DOIs that are equal after normalization, and both are kept.
    And when a record with another DOI reuses the [pmid] of the earliest
    record, that record is replaced, while the later record with its DOI is
    still skipped: neither is in the output. *)
Lemma same_doi_collapses_counterexample :
  (doi Sample.blankAlpha = Some " " ∧ doi Sample.blankBeta = Some " "
   ∧ normalizeString " " = normalizeString " "
   ∧ deduplicateArticles [Sample.blankAlpha; Sample.blankBeta]
     = [Sample.blankAlpha; Sample.blankBeta])
  ∧ (doi Sample.first = Some "10.1/a" ∧ doi Sample.firstAgain = Some "10.1/A"
     ∧ normalizeString "10.1/a" = normalizeString "10.1/A"
     ∧ deduplicateArticles [Sample.first; Sample.second; Sample.firstAgain]
       = [Sample.second]).
Proof. by vm_compute. Qed.

(** C3, as the code has it.  A record with a usable DOI (not blank after
    trimming) whose normalized form is not among the DOIs accepted so far is
    accepted whatever its title, first author and year, and is in the
    output unless a later record with a DOI reuses its [pmid]; two records
    with different normalized DOIs and different [pmid]s are both kept. *)
Theorem new_doi_accepted :
  (∀ pre a post d,
     usableDoi a = Some d →
     normalizeString d ∉ doiMap (dedupRun dedupInit pre) →
     (∀ y, y ∈ post → is_Some (usableDoi y) → pmid y ≠ pmid a) →
     a ∈ deduplicateArticles (pre ++ a :: post))
  ∧ (∀ a b da db,
       usableDoi a = Some da → usableDoi b = Some db →
       normalizeString da ≠ normalizeString db → pmid a ≠ pmid b →
       deduplicateArticles [a; b] = [a; b]).
Proof.
  split.
  - intros pre a post d E Hnew Hpost. by apply (new_doi_kept _ _ _ d).
  - intros a b da db Ea Eb Hne Hp.
    unfold deduplicateArticles, dedupRun. cbn [foldl].
    rewrite (dedupStep_doi_new _ _ da Ea) by apply not_elem_of_empty.
    rewrite (dedupStep_doi_new _ _ db Eb).
    + cbn [uniqueMap dedupInit mapSet]. by rewrite decide_False.
    + cbn [doiMap dedupInit]. intros [H|H]%elem_of_union.
      * apply elem_of_singleton in H. congruence.
      * by apply not_elem_of_empty in H.
Qed.

Lemma new_doi_accepted_witness :
  Sample.second ∈ deduplicateArticles [Sample.first; Sample.second; Sample.trial]
  ∧ deduplicateArticles [Sample.studyA; Sample.second]
    = [Sample.studyA; Sample.second].
Proof.
  split.
  - refine (proj1 new_doi_accepted [Sample.first] Sample.second [Sample.trial]
              "10.1/b" eq_refl _ _).
    + rewrite dedupRun_doiMap.
      intros [H|H]%elem_of_union; [by apply not_elem_of_empty in H|].
      apply elem_of_list_to_set, list_elem_of_omap in H as (x & Hx & H).
      apply list_elem_of_singleton in Hx as ->. discriminate.
    + intros y ->%list_elem_of_singleton [d Hd]. discriminate.
  - refine (proj2 new_doi_accepted Sample.studyA Sample.second "10.1/X" "10.1/b"
              eq_refl eq_refl _ _); by vm_compute.
Defined.

(** C3 as stated fails twice.  A record whose DOI is a single space bears
    a non-empty DOI that no accepted record has, yet it is handled by the
    second tier and dropped for its title.  And when a [pmid] comes twice,
    the first record has a DOI that no accepted record has, and the second
    record, with another DOI, takes its place in the map. *)
Lemma new_doi_accepted_counterexample :
  (doi Sample.blankTrial = Some " "
   ∧ (normalizeString " " ∉ doiMap (dedupRun dedupInit [Sample.trial]))
   ∧ deduplicateArticles [Sample.trial; Sample.blankTrial] = [Sample.trial]
   ∧ (Sample.blankTrial ∉ deduplicateArticles [Sample.trial; Sample.blankTrial]))
  ∧ (usableDoi Sample.first = Some "10.1/a"
     ∧ (normalizeString "10.1/a" ∉ doiMap (dedupRun dedupInit []))
     ∧ usableDoi Sample.second = Some "10.1/b"
     ∧ normalizeString "10.1/a" ≠ normalizeString "10.1/b"
     ∧ deduplicateArticles [Sample.first; Sample.second] = [Sample.second]
     ∧ (Sample.first ∉ deduplicateArticles [Sample.first; Sample.second])).
Proof.
  assert (deduplicateArticles [Sample.first; Sample.second] = [Sample.second])
    as H by (by vm_compute).
  assert (deduplicateArticles [Sample.trial; Sample.blankTrial] = [Sample.trial])
    as H' by (by vm_compute).
  split; split_and!;
    try first [done | apply not_elem_of_empty | by vm_compute].
  - rewrite H'. intros ?%list_elem_of_singleton. discriminate.
  - rewrite H. intros ?%list_elem_of_singleton. discriminate.
Qed.

(** ** Priority 2: records without a DOI *)

Section Fuzzy.

Lemma forallb_elem {A} (f : A → bool) (l : list A) x :
  forallb f l = true → x ∈ l → f x = true.
Proof. rewrite forallb_forall. intros H Hx. by apply H, list_elem_of_In. Qed.

Lemma plain_pmid_not_key y v : plainIds y = true → pmid y ≠ compositeKeyOf v.
Proof.
  unfold plainIds, compositeKeyOf. intros H E. rewrite E, makeKey_includes in H.
  discriminate.
Qed.

Lemma plain_year y : plainIds y = true → Js.includes bar (yearOf y) = false.
Proof.
  unfold plainIds. intros [_ H]%andb_true_iff. by apply negb_true_iff in H.
Qed.

Lemma plain_pmid y : plainIds y = true → Js.includes bar (pmid y) = false.
Proof.
  unfold plainIds. intros [H _]%andb_true_iff. by apply negb_true_iff in H.
Qed.

(** The scan, on the key of an accepted record without a DOI whose year
    holds no separator. *)
Lemma fuzzyHit_record b v :
  Js.includes bar (yearOf v) = false →
  fuzzyHit (normalizedTitleOf b) (firstAuthorOf b) (yearOf b) (compositeKeyOf v)
  = if bool_decide (firstAuthorOf v = firstAuthorOf b)
       && bool_decide (yearOf v = yearOf b)
    then similarTitles b v else false.
Proof.
  intros Hy. unfold compositeKeyOf.
  rewrite fuzzyHit_makeKey
    by first [apply normalizeString_no_bar | apply firstAuthorOf_no_bar].
  by rewrite split_no_bar.
Qed.

Lemma accepted_in_input pre v :
  v ∈ (uniqueMap (dedupRun dedupInit pre)).*2 → v ∈ pre.
Proof. intros H. apply (elem_of_submseteq _ _ _ H (dedupRun_values dedupInit pre)). Qed.

Lemma accepted_key pre v :
  v ∈ deduplicateArticles pre → usableDoi v = None →
  (compositeKeyOf v, v) ∈ uniqueMap (dedupRun dedupInit pre).
Proof.
  intros [k Hk]%value_entry E.
  destruct (dedupInv_run dedupInit pre dedupInv_init) as [_ He _ _].
  pose proof (entriesOk_key _ _ _ _ He Hk) as Hkey. rewrite E in Hkey.
  by subst k.
Qed.

(** A record close to an accepted one is dropped. *)
Lemma close_title_dropped pre a b post :
  a ∈ deduplicateArticles pre → usableDoi a = None → usableDoi b = None →
  firstAuthorOf a = firstAuthorOf b → yearOf a = yearOf b →
  Js.includes bar (yearOf a) = false →
  similarTitles b a = true →
  deduplicateArticles (pre ++ b :: post) = deduplicateArticles (pre ++ post).
Proof.
  intros Ha Ea Eb Hauth Hyear Hplain Hsim. apply dropped_record.
  pose proof (accepted_key _ _ Ha Ea) as Hk.
  destruct (decide (compositeKeyOf b ∈ (uniqueMap (dedupRun dedupInit pre)).*1)).
  { by apply dedupStep_key_seen. }
  apply dedupStep_fuzzy; [done|].
  unfold hitAmong. apply existsb_exists. exists (compositeKeyOf a). split.
  { by apply list_elem_of_In, (entry_key _ _ a). }
  rewrite fuzzyHit_record by done.
  by rewrite !bool_decide_eq_true_2.
Qed.

(** A record that no accepted key matches is appended and stays. *)
Lemma distinct_title_kept pre b post :
  usableDoi b = None →
  forallb plainIds (pre ++ b :: post) = true →
  (∀ a', a' ∈ deduplicateArticles pre → usableDoi a' = None →
         firstAuthorOf a' = firstAuthorOf b → yearOf a' = yearOf b →
         compositeKeyOf a' ≠ compositeKeyOf b ∧ similarTitles b a' = false) →
  (compositeKeyOf b, b) ∈ uniqueMap (dedupRun dedupInit (pre ++ [b]))
  ∧ b ∈ deduplicateArticles (pre ++ b :: post).
Proof.
  intros Eb Hplain Hall.
  set (st := dedupRun dedupInit pre).
  destruct (dedupInv_run dedupInit pre dedupInv_init) as [_ He _ _].
  assert (∀ k v, (k, v) ∈ uniqueMap st →
            k ≠ compositeKeyOf b
            ∧ fuzzyHit (normalizedTitleOf b) (firstAuthorOf b) (yearOf b) k = false)
    as Hkeys.
  { intros k v Hkv.
    assert (v ∈ pre) as Hv by (by eapply accepted_in_input, entry_value).
    assert (plainIds v = true) as Hpv.
    { apply (forallb_elem _ _ _ Hplain). apply elem_of_app. by left. }
    pose proof (entriesOk_key _ _ _ _ He Hkv) as Hkey.
    destruct (usableDoi v) as [d|] eqn:Ev; subst k.
    - split; [by apply plain_pmid_not_key|].
      by apply fuzzyHit_no_bar, plain_pmid.
    - rewrite fuzzyHit_record by by apply plain_year.
      destruct (decide (firstAuthorOf v = firstAuthorOf b)) as [Hf|Hf];
        [destruct (decide (yearOf v = yearOf b)) as [Hy|Hy]|].
      + destruct (Hall v) as [Hne Hsim]; try done.
        { unfold deduplicateArticles, mapValues. by eapply entry_value. }
        split; [done|]. by rewrite !bool_decide_eq_true_2.
      + split; [by intros (_ & _ & ?)%compositeKeyOf_inj|].
        by rewrite (bool_decide_eq_false_2 (yearOf v = yearOf b)), andb_false_r.
      + split; [by intros (_ & ? & _)%compositeKeyOf_inj|].
        by rewrite (bool_decide_eq_false_2 (firstAuthorOf v = firstAuthorOf b)). }
  assert (dedupStep st b
          = DedupState (uniqueMap st ++ [(compositeKeyOf b, b)]) (doiMap st)) as Hstep.
  { apply dedupStep_fresh; [done| |].
    - intros ([k v] & Heq & Hin)%list_elem_of_fmap.
      destruct (Hkeys k v Hin) as [Hne _]. simpl in Heq. congruence.
    - unfold hitAmong. apply not_true_iff_false.
      intros (k & Hin & Hk)%existsb_exists.
      apply list_elem_of_In, list_elem_of_fmap in Hin as ([k' v] & Heq & Hin).
      destruct (Hkeys k' v Hin) as [_ Hf]. simpl in Heq. congruence. }
  assert ((compositeKeyOf b, b) ∈ uniqueMap (dedupStep st b)) as Hin.
  { rewrite Hstep. simpl. apply elem_of_app. right. apply list_elem_of_here. }
  split.
  { by rewrite dedupRun_snoc. }
  unfold deduplicateArticles, mapValues. rewrite dedupRun_app, dedupRun_cons.
  apply (entry_value _ (compositeKeyOf b)), entry_persists; [done|].
  intros y Hy _. apply plain_pmid_not_key, (forallb_elem _ _ _ Hplain).
  apply elem_of_app. right. by apply list_elem_of_further.
Qed.

End Fuzzy.

(** C1, as the code has it.  Take two records without a usable DOI, [a]
    among the records accepted before [b] is read, with the same normalized
    first author and the same year, in an input whose [pmid]s and years
    hold no [|].  If the similarity of the normalized titles is above 0.85,
    [b] is dropped: the output is the one of the input without [b].  If
    every accepted record without a DOI that shares first author and year
    with [b] ([a] among them) has another composite key and a similarity of
    at most 0.85, both [a] and [b] are in the output. *)
Theorem fuzzy_title_match pre a b post :
  a ∈ deduplicateArticles pre →
  usableDoi a = None → usableDoi b = None →
  firstAuthorOf a = firstAuthorOf b → yearOf a = yearOf b →
  forallb plainIds (pre ++ b :: post) = true →
  (similarTitles b a = true →
   deduplicateArticles (pre ++ b :: post) = deduplicateArticles (pre ++ post))
  ∧ ((∀ a', a' ∈ deduplicateArticles pre → usableDoi a' = None →
            firstAuthorOf a' = firstAuthorOf b → yearOf a' = yearOf b →
            compositeKeyOf a' ≠ compositeKeyOf b ∧ similarTitles b a' = false) →
     a ∈ deduplicateArticles (pre ++ b :: post)
     ∧ b ∈ deduplicateArticles (pre ++ b :: post)).
Proof.
  intros Ha Ea Eb Hauth Hyear Hplain.
  assert (a ∈ pre) as Hin by (by apply accepted_in_input).
  assert (plainIds a = true) as Hpa.
  { apply (forallb_elem _ _ _ Hplain). apply elem_of_app. by left. }
  split.
  - intros Hsim. apply (close_title_dropped pre a); try done. by apply plain_year.
  - intros Hall. split; [|by apply distinct_title_kept].
    unfold deduplicateArticles, mapValues. rewrite dedupRun_app.
    apply (entry_value _ (compositeKeyOf a)), entry_persists.
    + by apply accepted_key.
    + intros y Hy _. apply plain_pmid_not_key, (forallb_elem _ _ _ Hplain).
      apply elem_of_app. by right.
Qed.

Lemma fuzzy_title_match_witness :
  deduplicateArticles [Sample.drug0; Sample.drug1; Sample.other]
  = deduplicateArticles [Sample.drug0; Sample.other]
  ∧ Sample.drug0 ∈ deduplicateArticles [Sample.drug0; Sample.drug2; Sample.other]
  ∧ Sample.drug2 ∈ deduplicateArticles [Sample.drug0; Sample.drug2; Sample.other].
Proof.
  assert (Sample.drug0 ∈ deduplicateArticles [Sample.drug0]) as H0.
  { vm_compute. apply list_elem_of_here. }
  split.
  - exact (proj1 (fuzzy_title_match [Sample.drug0] Sample.drug0 Sample.drug1
                    [Sample.other] H0 eq_refl eq_refl eq_refl eq_refl eq_refl)
                 eq_refl).
  - apply (proj2 (fuzzy_title_match [Sample.drug0] Sample.drug0 Sample.drug2
                    [Sample.other] H0 eq_refl eq_refl eq_refl eq_refl eq_refl)).
    intros a' Ha' _ _ _.
    assert (deduplicateArticles [Sample.drug0] = [Sample.drug0]) as E
      by (by vm_compute).
    rewrite E in Ha'. apply list_elem_of_singleton in Ha' as ->.
    split; [|by vm_compute]. vm_compute. discriminate.
Defined.

(** C1 as stated fails when a third record is involved.  In the chain
    below the second title is close to the first and is dropped; the third
    title is close to the second (similarity 0.9) but not to the first, so
    the later record of that pair is kept.  And the dropped second record
    is missing from the output although a fourth record is far from it. *)
Lemma fuzzy_title_match_counterexample :
  usableDoi Sample.drug1 = None ∧ usableDoi Sample.drug2 = None
  ∧ firstAuthorOf Sample.drug1 = firstAuthorOf Sample.drug2
  ∧ yearOf Sample.drug1 = yearOf Sample.drug2
  ∧ similarTitles Sample.drug2 Sample.drug1 = true
  ∧ deduplicateArticles [Sample.drug0; Sample.drug1; Sample.drug2]
    = [Sample.drug0; Sample.drug2]
  ∧ usableDoi Sample.other = None
  ∧ firstAuthorOf Sample.drug1 = firstAuthorOf Sample.other
  ∧ yearOf Sample.drug1 = yearOf Sample.other
  ∧ similarTitles Sample.other Sample.drug1 = false
  ∧ compositeKeyOf Sample.drug1 ≠ compositeKeyOf Sample.other
  ∧ deduplicateArticles [Sample.drug0; Sample.drug1; Sample.other]
    = [Sample.drug0; Sample.other].
Proof. split_and!; by vm_compute. Qed.

(** ** The end-to-end example *)



(** The fourth record is dropped by the exact look-up of its composite key:
    the normalized titles are equal, and the scan for close titles is not
    reached. *)
Example trial_keys_equal :
  compositeKeyOf Sample.trialDot = compositeKeyOf Sample.trial
  ∧ levenshteinDistance (normalizedTitleOf Sample.trialDot)
                        (normalizedTitleOf Sample.trial) = 0.
Proof. by vm_compute. Qed.

(** ** Extraction *)

Section Extraction.

Lemma parseBlocks_omap body blocks articles :
  parseBlocks body blocks articles
  = articles ++ omap (λ b, pushedOf (body b)) blocks.
Proof.
  revert articles. induction blocks as [|b blocks IH]; intros articles; csimpl.
  - by rewrite app_nil_r.
  - destruct (body b); simpl; rewrite IH; [|done..]. by rewrite <- app_assoc.
Qed.

(** The body pushes a record exactly for a block with an identifier, and
    the record carries that identifier; it never throws. *)
Lemma parseBlock_pmid articleXml :
  match parseBlock articleXml with
  | Pushed r => blockPmid articleXml = Some (pmid r)
  | Skipped => blockPmid articleXml = None
  | Thrown _ => False
  end.
Proof.
  unfold parseBlock, blockPmid.
  by destruct (group 1 (search pmidPattern articleXml)) as [[|c p]|].
Qed.

Lemma parseBlock_pushedOf articleXml :
  pmid <$> pushedOf (parseBlock articleXml) = blockPmid articleXml.
Proof.
  pose proof (parseBlock_pmid articleXml) as H.
  destruct (parseBlock articleXml); simpl; by rewrite ?H.
Qed.

Lemma parseArticles_omap xmlText :
  parseArticles xmlText
  = omap (λ b, pushedOf (parseBlock b)) (articleBlocksOf xmlText).
Proof. unfold parseArticles. by rewrite parseBlocks_omap. Qed.

Lemma omap_pmids (blocks : list string) :
  pmid <$> omap (λ b, pushedOf (parseBlock b)) blocks = omap blockPmid blocks.
Proof.
  induction blocks as [|b blocks IH]; [done|]. csimpl.
  rewrite <- (parseBlock_pushedOf b).
  destruct (pushedOf (parseBlock b)); csimpl; by rewrite IH.
Qed.

Lemma omap_per_block (blocks : list string) :
  Forall2 (λ r b, parseBlock b = Pushed r ∧ blockPmid b = Some (pmid r))
          (omap (λ b, pushedOf (parseBlock b)) blocks)
          (filter (λ b, is_Some (blockPmid b)) blocks).
Proof.
  induction blocks as [|b blocks IH]; [constructor|]. csimpl.
  rewrite filter_cons. pose proof (parseBlock_pmid b) as H.
  destruct (parseBlock b) as [r| |] eqn:E; simpl; [| |done].
  - rewrite decide_True by (rewrite H; eauto). by constructor.
  - rewrite decide_False; [done|]. rewrite H. by intros [? ?].
Qed.

End Extraction.


Example parseArticles_three :
  articleBlocksOf Sample.xmlThree
  = ["<PubmedArticle><PMID>111</PMID><ArticleTitle>One</ArticleTitle></PubmedArticle>";
     "<PubmedArticle><ArticleTitle>No identifier</ArticleTitle></PubmedArticle>";
     "<PubmedArticle><PMID>333</PMID><Year>2020</Year></PubmedArticle>"]
  ∧ parseArticles Sample.xmlThree
    = [ {| pmid := "111"; title := "One"; authors := ["Unknown authors"];
           journal := "Unknown journal"; pubDate := "Unknown date";
           abstract := "No abstract available"; doi := None; year := None |};
        {| pmid := "333"; title := "No title available";
           authors := ["Unknown authors"]; journal := "Unknown journal";
           pubDate := "Unknown date"; abstract := "No abstract available";
           doi := None; year := None |} ].
Proof. by vm_compute. Qed.

(** The identifier of a block is read from its first PMID element. *)
Example first_pmid_element :
  pmid <$> parseArticles
    "<PubmedArticle><PMID>111</PMID><Reference><PMID>222</PMID></Reference></PubmedArticle>"
  = ["111"]
  ∧ parseArticles "<PubmedArticle><PMID></PMID><PMID>222</PMID></PubmedArticle>" = [].
Proof. by vm_compute. Qed.

Example parseArticles_no_block :
  parseArticles "" = [] ∧ parseArticles "<PubmedArticleSet></PubmedArticleSet>" = [].
Proof. by vm_compute. Qed.





Example thrown_block_dropped :
  parseBlocks Sample.throwing ["a"; "bad"; "c"] []
  = parseBlocks Sample.throwing ["a"; "c"] []
  ∧ length (parseBlocks Sample.throwing ["a"; "bad"; "c"] []) = 2.
Proof. by vm_compute. Qed.

(** ** The shape of normalized strings *)

Section Normalized.

Lemma lowerChar_kept c :
  Js.isWord (Js.lowerChar c) || Js.isSpace (Js.lowerChar c) = true →
  (Js.isWord (Js.lowerChar c) && negb (Js.isUpper (Js.lowerChar c)))
  || Js.isSpace (Js.lowerChar c) = true.
Proof. destruct c as [[] [] [] [] [] [] [] []]; vm_compute; done. Qed.

Lemma word_lower_normChar c :
  (Js.isWord c && negb (Js.isUpper c)) || Js.isSpace c = true →
  Js.isSpace c = false → normChar c = true.
Proof. destruct c as [[] [] [] [] [] [] [] []]; vm_compute; done. Qed.

Lemma normChar_space c : normChar c = true → Js.isSpace c = (Js.code c =? 32).
Proof. destruct c as [[] [] [] [] [] [] [] []]; vm_compute; done. Qed.

Lemma allChars_lowered s :
  allChars (λ c, (Js.isWord c && negb (Js.isUpper c)) || Js.isSpace c)
           (Js.filter (λ c, Js.isWord c || Js.isSpace c) (Js.toLowerCase s))
  = true.
Proof.
  induction s as [|c s IH]; [done|]. cbn [Js.toLowerCase Js.filter].
  destruct (Js.isWord (Js.lowerChar c) || Js.isSpace (Js.lowerChar c)) eqn:E;
    [|done].
  cbn [allChars]. by rewrite lowerChar_kept, IH.
Qed.

Lemma allChars_collapse_normChar inRun s :
  allChars (λ c, (Js.isWord c && negb (Js.isUpper c)) || Js.isSpace c) s = true →
  allChars normChar (Js.collapseFrom inRun s) = true.
Proof.
  revert inRun. induction s as [|c s IH]; intros inRun H; [done|].
  cbn [allChars] in H. apply andb_true_iff in H as [Hc Hs].
  cbn [Js.collapseFrom]. destruct (Js.isSpace c) eqn:E.
  - destruct inRun; cbn [allChars]; auto.
    rewrite IH by done. done.
  - cbn [allChars]. rewrite <- E in Hc.
    by rewrite (word_lower_normChar c Hc E), IH.
Qed.

Lemma noDouble_collapse inRun s : noDouble inRun (Js.collapseFrom inRun s) = true.
Proof.
  revert inRun. induction s as [|c s IH]; intros inRun; [done|].
  cbn [Js.collapseFrom]. destruct (Js.isSpace c) eqn:E.
  - destruct inRun; [apply IH|]. cbn [noDouble].
    change (Js.isSpace " ") with true. cbn [negb andb]. apply IH.
  - cbn [noDouble]. rewrite E. apply IH.
Qed.

Lemma noDouble_trimStart prev s :
  noDouble prev s = true → noDouble true (Js.trimStart s) = true.
Proof.
  revert prev. induction s as [|c s IH]; intros prev H; [done|].
  cbn [Js.trimStart noDouble] in *. destruct (Js.isSpace c) eqn:E.
  - apply andb_true_iff in H as [_ H]. by eapply IH.
  - cbn [noDouble]. by rewrite E.
Qed.

Lemma singleSpaced_trimEnd prev s :
  noDouble prev s = true → Js.trimEnd s ≠ EmptyString →
  singleSpaced prev (Js.trimEnd s) = true.
Proof.
  revert prev. induction s as [|c s IH]; intros prev H Hne; [done|].
  cbn [Js.trimEnd noDouble] in *.
  destruct (Js.trimEnd s) as [|d u] eqn:Eu.
  - destruct (Js.isSpace c) eqn:E; [done|]. cbn [singleSpaced]. by rewrite E.
  - cbn [singleSpaced]. destruct (Js.isSpace c) eqn:E.
    + apply andb_true_iff in H as [-> H]. by apply IH.
    + by apply IH.
Qed.

(** What [normalizeString] does guarantee: the result is made of a-z, 0-9,
    the underscore and the space, and a space stands alone between two
    other characters. *)
Lemma normalizeString_shape s :
  allChars normChar (normalizeString s) = true
  ∧ internalSpaces (normalizeString s) = true.
Proof.
  unfold normalizeString, Js.trim, Js.collapseSpaces. split.
  - apply allChars_trimEnd, allChars_trimStart, allChars_collapse_normChar,
      allChars_lowered.
  - unfold internalSpaces.
    destruct (Js.trimEnd _) as [|c u] eqn:E; [done|]. rewrite <- E.
    apply singleSpaced_trimEnd; [|by rewrite E].
    eapply noDouble_trimStart, noDouble_collapse.
Qed.

End Normalized.

(** C6.  On the input ["a_b"] the result of [normalizeString] is ["a_b"]:
    the underscore, which is neither a letter nor a digit nor white space,
    is kept, since [\w] matches it. *)
Theorem normalizeString_keeps_underscore :
  normalizeString "a_b" = "a_b"
  ∧ Js.isLower "_" = false ∧ Js.isUpper "_" = false
  ∧ Js.isDigit "_" = false ∧ Js.isSpace "_" = false.
Proof. by vm_compute. Qed.

Example normalizeString_samples :
  normalizeString "10.1/X" = "101x"
  ∧ normalizeString "  A  Large   Trial. " = "a large trial"
  ∧ normalizeString "Smith, J." = "smith j"
  ∧ normalizeString " . " = "".
Proof. by vm_compute. Qed.

(** * Further properties *)

(** ** Edit distance: bounds and triangle inequality *)

Section LevenshteinMetric.

Lemma lev_le_max a b : lev a b ≤ Nat.max (length a) (length b).
Proof.
  revert b. induction a as [|x a IHa]; intros b.
  - simpl. lia.
  - induction b as [|y b IHb]; [simpl; lia|].
    rewrite lev_cons. specialize (IHa b). simpl length.
    destruct (Ascii.eqb x y); unfold min3; lia.
Qed.

Lemma lev_ge_diff a b :
  length a - length b ≤ lev a b ∧ length b - length a ≤ lev a b.
Proof.
  revert b. induction a as [|x a IHa]; intros b.
  - simpl. lia.
  - induction b as [|y b IHb]; [simpl; lia|].
    rewrite lev_cons. pose proof (IHa b). pose proof (IHa (y :: b)).
    simpl length in *.
    destruct (Ascii.eqb x y); unfold min3; lia.
Qed.

(** One more code unit in front of a word moves the distance by at most
    one, up or down. *)
Lemma lev_cons_step n :
  ∀ a b, length a + length b ≤ n →
    ∀ x, lev (x :: a) b ≤ lev a b + 1 ∧ lev a b ≤ lev (x :: a) b + 1.
Proof.
  induction n as [|n IH]; intros a b Hn x.
  - destruct a, b; simpl in Hn; try lia. simpl. lia.
  - destruct b as [|y b]; [rewrite !lev_nil_r; simpl; lia|].
    simpl length in Hn.
    assert (length a + length b ≤ n) as Hab by lia.
    assert (length b + length a ≤ n) as Hba by lia.
    destruct (IH a b Hab x) as [U D].
    destruct (IH b a Hba y) as [U' D'].
    rewrite (lev_sym (y :: b) a), (lev_sym b a) in U', D'.
    rewrite lev_cons. destruct (Ascii.eqb x y); unfold min3; lia.
Qed.

Lemma lev_cons_l x a b : lev (x :: a) b ≤ lev a b + 1 ∧ lev a b ≤ lev (x :: a) b + 1.
Proof. by apply (lev_cons_step (length a + length b)). Qed.

Lemma lev_cons_r y a b : lev a (y :: b) ≤ lev a b + 1 ∧ lev a b ≤ lev a (y :: b) + 1.
Proof. rewrite (lev_sym a (y :: b)), (lev_sym a b). apply lev_cons_l. Qed.

(** The distance of two non-empty words is at most each of the three
    candidates of the recurrence, also when the first code units agree. *)
Lemma lev_cons_upper x a y b :
  lev (x :: a) (y :: b) ≤ lev a b + (if Ascii.eqb x y then 0 else 1)
  ∧ lev (x :: a) (y :: b) ≤ lev a (y :: b) + 1
  ∧ lev (x :: a) (y :: b) ≤ lev (x :: a) b + 1.
Proof.
  pose proof (lev_cons_l x a b). pose proof (lev_cons_r y a b).
  rewrite lev_cons. destruct (Ascii.eqb x y); unfold min3; lia.
Qed.

Lemma lev_triangle_step n :
  ∀ a b c, length a + length b + length c ≤ n →
    lev a c ≤ lev a b + lev b c.
Proof.
  induction n as [|n IH]; intros a b c Hn.
  - destruct a, b, c; simpl in Hn; simpl; lia.
  - destruct a as [|x a].
    { pose proof (lev_ge_diff b c). simpl. lia. }
    destruct c as [|z c].
    { pose proof (lev_ge_diff (x :: a) b). rewrite !lev_nil_r. lia. }
    destruct b as [|y b].
    { pose proof (lev_le_max (x :: a) (z :: c)) as Hm. rewrite lev_nil_r.
      change (lev [] (z :: c)) with (length (z :: c)). lia. }
    simpl length in Hn.
    pose proof (IH a b c ltac:(lia)) as H1.
    pose proof (IH a (y :: b) (z :: c) ltac:(simpl; lia)) as H2.
    pose proof (IH (x :: a) (y :: b) c ltac:(simpl; lia)) as H3.
    pose proof (IH (x :: a) b (z :: c) ltac:(simpl; lia)) as H4.
    pose proof (IH (x :: a) b c ltac:(simpl; lia)) as H5.
    pose proof (IH a b (z :: c) ltac:(simpl; lia)) as H6.
    destruct (lev_cons_upper x a z c) as (U1 & U2 & U3).
    pose proof (lev_cons x a y b) as EA. pose proof (lev_cons y b z c) as EB.
    destruct (Ascii.eqb x y) eqn:Exy; destruct (Ascii.eqb y z) eqn:Eyz;
      destruct (Ascii.eqb x z) eqn:Exz;
      try (apply Ascii.eqb_eq in Exy; apply Ascii.eqb_eq in Eyz;
           subst; rewrite Ascii.eqb_refl in Exz; discriminate);
      unfold min3 in *; lia.
Qed.

Lemma lev_triangle a b c : lev a c ≤ lev a b + lev b c.
Proof. by apply (lev_triangle_step (length a + length b + length c)). Qed.

End LevenshteinMetric.

(** X1.  [levenshteinDistance] obeys the triangle inequality. *)
Theorem levenshteinDistance_triangle (a b c : string) :
  levenshteinDistance a c ≤ levenshteinDistance a b + levenshteinDistance b c.
Proof.
  rewrite !levenshteinDistance_lev.
  rewrite (Nat.add_comm (lev _ _)). apply lev_triangle.
Qed.

(** X2.  The distance lies between the difference of the two lengths and
    the greater length. *)
Theorem levenshteinDistance_bounds (a b : string) :
  String.length a - String.length b ≤ levenshteinDistance a b
  ∧ String.length b - String.length a ≤ levenshteinDistance a b
  ∧ levenshteinDistance a b ≤ Nat.max (String.length a) (String.length b).
Proof.
  rewrite levenshteinDistance_lev.
  pose proof (lev_ge_diff (rev (Js.chars b)) (rev (Js.chars a))) as H1.
  pose proof (lev_le_max (rev (Js.chars b)) (rev (Js.chars a))) as H2.
  rewrite !length_rev, !chars_length in *. lia.
Qed.

(** ** Similarity *)

Section Similarity.

Lemma pos_of_nat_Z n : n ≠ 0 → Z.pos (Pos.of_nat n) = Z.of_nat n.
Proof. lia. Qed.

Lemma length_zero_empty s : String.length s = 0 → s = EmptyString.
Proof. by destruct s. Qed.

(** The two branches of [calculateSimilarity], with the lengths compared. *)
Lemma calculateSimilarity_longer_l a b :
  String.length b < String.length a →
  calculateSimilarity a b
  = Qmake (Z.of_nat (String.length a) - Z.of_nat (levenshteinDistance a b))
          (Pos.of_nat (String.length a)).
Proof.
  intros H. unfold calculateSimilarity.
  rewrite (proj2 (Nat.ltb_lt _ _) H).
  by rewrite (proj2 (Nat.eqb_neq _ _)) by lia.
Qed.

Lemma calculateSimilarity_longer_r a b :
  String.length a ≤ String.length b → String.length b ≠ 0 →
  calculateSimilarity a b
  = Qmake (Z.of_nat (String.length b) - Z.of_nat (levenshteinDistance b a))
          (Pos.of_nat (String.length b)).
Proof.
  intros H H0. unfold calculateSimilarity.
  rewrite (proj2 (Nat.ltb_ge _ _) H).
  by rewrite (proj2 (Nat.eqb_neq _ _)) by lia.
Qed.

Lemma calculateSimilarity_empty a b :
  String.length a ≤ String.length b → String.length b = 0 →
  calculateSimilarity a b = 1%Q.
Proof.
  intros H H0. unfold calculateSimilarity.
  rewrite (proj2 (Nat.ltb_ge _ _) H). by rewrite H0.
Qed.

Lemma levenshteinDistance_comm a b :
  levenshteinDistance a b = levenshteinDistance b a.
Proof. rewrite !levenshteinDistance_lev. apply lev_sym. Qed.

Lemma levenshteinDistance_zero a b : levenshteinDistance a b = 0 ↔ a = b.
Proof.
  rewrite levenshteinDistance_lev, lev_zero. split; [|by intros ->].
  intros H. apply (f_equal (@rev ascii)) in H. rewrite !rev_involutive in H.
  symmetry. by apply chars_inj.
Qed.

Lemma levenshteinDistance_le_max a b :
  levenshteinDistance a b ≤ Nat.max (String.length a) (String.length b).
Proof.
  rewrite levenshteinDistance_lev.
  pose proof (lev_le_max (rev (Js.chars b)) (rev (Js.chars a))) as H.
  rewrite !length_rev, !chars_length in H. lia.
Qed.

(** The three shapes of a similarity. *)
Lemma calculateSimilarity_cases a b :
  (String.length a = 0 ∧ String.length b = 0 ∧ calculateSimilarity a b = 1%Q)
  ∨ ∃ n d : nat,
      n = Nat.max (String.length a) (String.length b) ∧ n ≠ 0
      ∧ d = levenshteinDistance a b ∧ d ≤ n
      ∧ calculateSimilarity a b = Qmake (Z.of_nat n - Z.of_nat d) (Pos.of_nat n).
Proof.
  destruct (decide (String.length b < String.length a)) as [Hlt|Hge].
  - right. exists (String.length a), (levenshteinDistance a b).
    pose proof (levenshteinDistance_le_max a b).
    split_and!; try lia. by apply calculateSimilarity_longer_l.
  - destruct (decide (String.length b = 0)) as [H0|H0].
    + left. split_and!; try lia. apply calculateSimilarity_empty; lia.
    + right. exists (String.length b), (levenshteinDistance a b).
      pose proof (levenshteinDistance_le_max a b).
      split_and!; try lia.
      rewrite (levenshteinDistance_comm a b).
      apply calculateSimilarity_longer_r; lia.
Qed.

End Similarity.

(** X3.  [calculateSimilarity] does not depend on the order of its
    arguments. *)
Theorem calculateSimilarity_sym (a b : string) :
  calculateSimilarity a b = calculateSimilarity b a.
Proof.
  destruct (calculateSimilarity_cases a b) as [(Ha & Hb & ->)|(n & d & Hn & Hn0 & Hd & _ & ->)];
    destruct (calculateSimilarity_cases b a) as [(Hb' & Ha' & ->)|(n' & d' & Hn' & Hn0' & Hd' & _ & ->)];
    try done; try lia.
  rewrite (levenshteinDistance_comm b a) in Hd'.
  by replace n' with n by lia; replace d' with d by lia.
Qed.

(** X4.  A similarity is a number between 0 and 1. *)
Theorem calculateSimilarity_range (a b : string) :
  (0 <= calculateSimilarity a b)%Q ∧ (calculateSimilarity a b <= 1)%Q.
Proof.
  destruct (calculateSimilarity_cases a b) as [(_ & _ & ->)|(n & d & _ & Hn0 & _ & Hd & ->)].
  - done.
  - unfold Qle. cbn [Qnum Qden]. rewrite pos_of_nat_Z by done. lia.
Qed.

(** X5.  The similarity is 1 exactly for equal strings (two empty strings
    included), and a string is always above the threshold against itself. *)
Theorem calculateSimilarity_one (a b : string) :
  ((calculateSimilarity a b == 1)%Q ↔ a = b)
  ∧ aboveThreshold (calculateSimilarity a a) = true.
Proof.
  assert (∀ a b, (calculateSimilarity a b == 1)%Q ↔ a = b) as H.
  { clear. intros a b.
    destruct (calculateSimilarity_cases a b) as [(Ha & Hb & ->)|(n & d & _ & Hn0 & Hd & Hle & ->)].
    - split; [|done]. intros _.
      by rewrite (length_zero_empty a), (length_zero_empty b).
    - rewrite <- levenshteinDistance_zero, <- Hd.
      unfold Qeq. cbn [Qnum Qden]. rewrite pos_of_nat_Z by done. lia. }
  split; [apply H|].
  pose proof (proj2 (H a a) eq_refl) as H1.
  unfold aboveThreshold. apply negb_true_iff, not_true_iff_false.
  intros Hle%Qle_bool_iff. rewrite H1 in Hle. by vm_compute in Hle.
Qed.

(** ** More on normalized strings *)

Section NormalizedMore.

Lemma normChar_lowerChar c : normChar c = true → Js.lowerChar c = c.
Proof. destruct c as [[] [] [] [] [] [] [] []]; vm_compute; done. Qed.

Lemma normChar_kept c : normChar c = true → Js.isWord c || Js.isSpace c = true.
Proof. destruct c as [[] [] [] [] [] [] [] []]; vm_compute; done. Qed.

Lemma normChar_space_is c :
  normChar c = true → Js.isSpace c = true → c = " "%char.
Proof. destruct c as [[] [] [] [] [] [] [] []]; vm_compute; done. Qed.

Lemma isWord_lowerChar c : Js.isWord (Js.lowerChar c) = Js.isWord c.
Proof. destruct c as [[] [] [] [] [] [] [] []]; vm_compute; done. Qed.

Lemma isSpace_lowerChar c : Js.isSpace (Js.lowerChar c) = Js.isSpace c.
Proof. destruct c as [[] [] [] [] [] [] [] []]; vm_compute; done. Qed.

Lemma isWord_not_space c : Js.isWord c = true → Js.isSpace c = false.
Proof. destruct c as [[] [] [] [] [] [] [] []]; vm_compute; done. Qed.

Lemma toLowerCase_id s : allChars normChar s = true → Js.toLowerCase s = s.
Proof.
  induction s as [|c s IH]; [done|]. cbn [allChars Js.toLowerCase].
  intros [Hc Hs]%andb_true_iff. by rewrite normChar_lowerChar, IH.
Qed.

Lemma filter_id s :
  allChars normChar s = true →
  Js.filter (λ c, Js.isWord c || Js.isSpace c) s = s.
Proof.
  induction s as [|c s IH]; [done|]. cbn [allChars Js.filter].
  intros [Hc Hs]%andb_true_iff. by rewrite normChar_kept, IH.
Qed.

Lemma collapseFrom_id inRun s :
  allChars normChar s = true → noDouble inRun s = true →
  Js.collapseFrom inRun s = s.
Proof.
  revert inRun. induction s as [|c s IH]; intros inRun; [done|].
  cbn [allChars noDouble Js.collapseFrom].
  intros [Hc Hs]%andb_true_iff Hd. destruct (Js.isSpace c) eqn:E.
  - apply andb_true_iff in Hd as [Hr Hd]. apply negb_true_iff in Hr as ->.
    by rewrite IH, (normChar_space_is c).
  - by rewrite IH.
Qed.

Lemma singleSpaced_noDouble prev s : singleSpaced prev s = true → noDouble prev s = true.
Proof.
  revert prev. induction s as [|c s IH]; intros prev; [done|].
  cbn [singleSpaced noDouble]. destruct (Js.isSpace c); [|apply IH].
  intros [-> H]%andb_true_iff. by rewrite IH.
Qed.

Lemma trimStart_id s : singleSpaced true s = true → Js.trimStart s = s.
Proof.
  destruct s as [|c s]; [done|]. cbn [singleSpaced Js.trimStart].
  by destruct (Js.isSpace c).
Qed.

Lemma trimEnd_id prev s : singleSpaced prev s = true → Js.trimEnd s = s.
Proof.
  revert prev. induction s as [|c s IH]; intros prev; [done|].
  cbn [singleSpaced Js.trimEnd]. intros H.
  assert (Js.trimEnd s = s) as ->.
  { destruct (Js.isSpace c); [apply andb_true_iff in H as [_ H]|]; by eapply IH. }
  destruct s; [|done].
  destruct (Js.isSpace c); [|done]. cbn in H. by rewrite andb_false_r in H.
Qed.

(** A string of the normalized shape is left as it is. *)
Lemma normalizeString_fixed s :
  allChars normChar s = true → internalSpaces s = true → normalizeString s = s.
Proof.
  intros Hc Hs. unfold normalizeString, Js.trim, Js.collapseSpaces.
  rewrite toLowerCase_id, filter_id by done.
  destruct s as [|c s]; [done|]. unfold internalSpaces in Hs.
  rewrite collapseFrom_id; [|done|].
  - by rewrite trimStart_id, (trimEnd_id true).
  - apply singleSpaced_noDouble in Hs. cbn [singleSpaced noDouble] in *.
    destruct (Js.isSpace c); [done|done].
Qed.

Lemma length_filter keep s : String.length (Js.filter keep s) ≤ String.length s.
Proof. induction s as [|c s IH]; simpl; [done|]. destruct (keep c); simpl; lia. Qed.

Lemma length_toLowerCase s : String.length (Js.toLowerCase s) = String.length s.
Proof. induction s as [|c s IH]; simpl; congruence. Qed.

Lemma length_collapseFrom inRun s :
  String.length (Js.collapseFrom inRun s) ≤ String.length s.
Proof.
  revert inRun. induction s as [|c s IH]; intros inRun; simpl; [done|].
  pose proof (IH true). pose proof (IH false).
  destruct (Js.isSpace c); [destruct inRun|]; simpl; lia.
Qed.

Lemma length_trimStart s : String.length (Js.trimStart s) ≤ String.length s.
Proof. induction s as [|c s IH]; simpl; [done|]. destruct (Js.isSpace c); simpl; lia. Qed.

Lemma length_trimEnd s : String.length (Js.trimEnd s) ≤ String.length s.
Proof.
  induction s as [|c s IH]; simpl; [done|].
  destruct (Js.trimEnd s); [destruct (Js.isSpace c)|]; simpl in *; lia.
Qed.

Lemma hasWord_toLowerCase s : hasWord (Js.toLowerCase s) = hasWord s.
Proof. induction s as [|c s IH]; simpl; [done|]. by rewrite isWord_lowerChar, IH. Qed.

Lemma hasWord_filter s :
  hasWord (Js.filter (λ c, Js.isWord c || Js.isSpace c) s) = hasWord s.
Proof.
  induction s as [|c s IH]; simpl; [done|].
  destruct (Js.isWord c) eqn:Ew; simpl; [by rewrite Ew|].
  destruct (Js.isSpace c); simpl; by rewrite ?Ew, IH.
Qed.

Lemma hasWord_collapseFrom inRun s : hasWord (Js.collapseFrom inRun s) = hasWord s.
Proof.
  revert inRun. induction s as [|c s IH]; intros inRun; simpl; [done|].
  destruct (Js.isSpace c) eqn:E.
  - assert (Js.isWord c = false) as ->.
    { destruct (Js.isWord c) eqn:Ew; [|done].
      by rewrite (isWord_not_space c Ew) in E. }
    destruct inRun; simpl; apply IH.
  - simpl. by rewrite IH.
Qed.

Lemma hasWord_trimStart s : hasWord (Js.trimStart s) = hasWord s.
Proof.
  induction s as [|c s IH]; simpl; [done|].
  destruct (Js.isSpace c) eqn:E; [|done]. rewrite IH.
  destruct (Js.isWord c) eqn:Ew; [|done]. by rewrite (isWord_not_space c Ew) in E.
Qed.

Lemma hasWord_trimEnd s : hasWord (Js.trimEnd s) = hasWord s.
Proof.
  induction s as [|c s IH]; simpl; [done|].
  destruct (Js.trimEnd s) as [|d t]; simpl in *; [|by rewrite IH].
  rewrite <- IH, orb_false_r.
  destruct (Js.isSpace c) eqn:E; simpl; [|by rewrite orb_false_r].
  destruct (Js.isWord c) eqn:Ew; [|done]. by rewrite (isWord_not_space c Ew) in E.
Qed.

Lemma hasWord_normalizeString s : hasWord (normalizeString s) = hasWord s.
Proof.
  unfold normalizeString, Js.trim, Js.collapseSpaces.
  by rewrite hasWord_trimEnd, hasWord_trimStart, hasWord_collapseFrom,
    hasWord_filter, hasWord_toLowerCase.
Qed.

Lemma normChar_not_word c :
  normChar c = true → Js.isWord c = false → Js.isSpace c = true.
Proof. destruct c as [[] [] [] [] [] [] [] []]; vm_compute; done. Qed.

Lemma length_normalizeString s :
  String.length (normalizeString s) ≤ String.length s.
Proof.
  unfold normalizeString, Js.trim, Js.collapseSpaces.
  etrans; [apply length_trimEnd|]. etrans; [apply length_trimStart|].
  etrans; [apply length_collapseFrom|]. etrans; [apply length_filter|].
  by rewrite length_toLowerCase.
Qed.

End NormalizedMore.

(** X6.  [normalizeString] is idempotent. *)
Theorem normalizeString_idempotent (s : string) :
  normalizeString (normalizeString s) = normalizeString s.
Proof.
  destruct (normalizeString_shape s) as [Hc Hs].
  by apply normalizeString_fixed.
Qed.

(** X7.  The result of [normalizeString] is made of a-z, 0-9, the
    underscore and the space; a space stands alone between two other
    characters; and the result is not longer than the input. *)
Theorem normalizeString_alphabet (s : string) :
  allChars normChar (normalizeString s) = true
  ∧ internalSpaces (normalizeString s) = true
  ∧ String.length (normalizeString s) ≤ String.length s.
Proof.
  unfold normalizeString, Js.trim, Js.collapseSpaces. split_and!.
  - apply allChars_trimEnd, allChars_trimStart, allChars_collapse_normChar,
      allChars_lowered.
  - unfold internalSpaces.
    destruct (Js.trimEnd _) as [|c u] eqn:E; [done|]. rewrite <- E.
    apply singleSpaced_trimEnd; [|by rewrite E].
    eapply noDouble_trimStart, noDouble_collapse.
  - apply length_normalizeString.
Qed.


(** ** Composite keys *)

(** X9.  Splitting a composite key at [|] gives back the normalized title
    and the first author, followed by the pieces of the year; with a year
    that holds no [|] the three components come back as they went in. *)
Theorem compositeKey_split (r : article) :
  Js.includes bar (compositeKeyOf r) = true
  ∧ Js.split bar (compositeKeyOf r)
    = normalizedTitleOf r :: firstAuthorOf r :: Js.split bar (yearOf r)
  ∧ (Js.includes bar (yearOf r) = false →
     Js.split bar (compositeKeyOf r)
     = [normalizedTitleOf r; firstAuthorOf r; yearOf r]).
Proof.
  assert (Js.split bar (compositeKeyOf r)
          = normalizedTitleOf r :: firstAuthorOf r :: Js.split bar (yearOf r)) as H.
  { unfold compositeKeyOf. rewrite makeKey_unfold.
    rewrite split_app_bar by apply normalizeString_no_bar.
    by rewrite split_app_bar by apply firstAuthorOf_no_bar. }
  split_and!; [apply makeKey_includes|done|].
  intros Hy. by rewrite H, split_no_bar.
Qed.

(** X10.  Two records have the same composite key exactly when they agree
    on normalized title, normalized first author and year. *)
Theorem compositeKey_identifies (a b : article) :
  compositeKeyOf a = compositeKeyOf b
  ↔ normalizedTitleOf a = normalizedTitleOf b
    ∧ firstAuthorOf a = firstAuthorOf b ∧ yearOf a = yearOf b.
Proof.
  split; [apply compositeKeyOf_inj|].
  intros (Ht & Ha & Hy). unfold compositeKeyOf. by rewrite Ht, Ha, Hy.
Qed.

(** ** More on the de-duplication loop *)

Section DedupMore.

Lemma mapSet_keys_sub key value (m : jsmap) k :
  k ∈ m.*1 → k ∈ (mapSet key value m).*1.
Proof.
  intros H. destruct (decide (key ∈ m.*1)).
  - by rewrite mapSet_keys_old.
  - rewrite mapSet_new, fmap_app by done. apply elem_of_app. by left.
Qed.

Lemma dedupStep_keys_sub st a k :
  k ∈ (uniqueMap st).*1 → k ∈ (uniqueMap (dedupStep st a)).*1.
Proof.
  intros H.
  destruct (dedupStep_cases st a) as [d E _ ->|d E _ ->|E _ ->|E _ _ ->|E _ _ ->];
    try done; simpl.
  - by apply mapSet_keys_sub.
  - rewrite fmap_app. apply elem_of_app. by left.
Qed.

Lemma dedupStep_doi_sub st a d : d ∈ doiMap st → d ∈ doiMap (dedupStep st a).
Proof. rewrite dedupStep_doiMap. apply elem_of_union_l. Qed.

Lemma hitAmong_mono a (ks ks' : list string) :
  (∀ k, k ∈ ks → k ∈ ks') → hitAmong a ks = true → hitAmong a ks' = true.
Proof.
  unfold hitAmong. rewrite !existsb_exists. intros Hsub (k & Hk & Hhit).
  exists k. split; [|done]. by apply list_elem_of_In, Hsub, list_elem_of_In.
Qed.

Lemma seenBy_skipped st a : seenBy st a → dedupStep st a = st.
Proof.
  unfold seenBy. destruct (usableDoi a) as [d|] eqn:E.
  - by apply dedupStep_doi_seen.
  - intros [H|H]; [by apply dedupStep_key_seen|by apply dedupStep_fuzzy].
Qed.

Lemma seenBy_after st a : seenBy (dedupStep st a) a.
Proof.
  unfold seenBy.
  destruct (dedupStep_cases st a) as [d E H ->|d E _ ->|E H ->|E _ H ->|E _ _ ->];
    rewrite E; simpl; auto.
  - apply elem_of_union_l. by apply elem_of_singleton.
  - left. rewrite fmap_app. apply elem_of_app. right. apply list_elem_of_here.
Qed.

Lemma seenBy_step st y a : seenBy st a → seenBy (dedupStep st y) a.
Proof.
  unfold seenBy. destruct (usableDoi a) as [d|].
  - apply dedupStep_doi_sub.
  - intros [H|H]; [left; by apply dedupStep_keys_sub|right].
    eapply hitAmong_mono; [|done]. intros k. apply dedupStep_keys_sub.
Qed.

Lemma seenBy_run st ys a : seenBy st a → seenBy (dedupRun st ys) a.
Proof.
  revert st. induction ys as [|y ys IH]; intros st H; [done|].
  rewrite dedupRun_cons. by apply IH, seenBy_step.
Qed.

Lemma seenBy_input st xs a : a ∈ xs → seenBy (dedupRun st xs) a.
Proof.
  revert st. induction xs as [|x xs IH]; intros st; [by intros ?%elem_of_nil|].
  rewrite dedupRun_cons. intros [->|H]%elem_of_cons; [|by apply IH].
  apply seenBy_run, seenBy_after.
Qed.

Lemma dedupRun_seen st ys : (∀ y, y ∈ ys → seenBy st y) → dedupRun st ys = st.
Proof.
  induction ys as [|y ys IH]; intros H; [done|].
  rewrite dedupRun_cons, seenBy_skipped by apply H, list_elem_of_here.
  apply IH. intros y' Hy'. by apply H, list_elem_of_further.
Qed.

Lemma mapSet_length key value (m : jsmap) : length m ≤ length (mapSet key value m).
Proof.
  induction m as [|[k v] m IH]; simpl; [lia|].
  destruct (decide (k = key)); simpl; lia.
Qed.

Lemma dedupStep_length st a :
  length (uniqueMap st) ≤ length (uniqueMap (dedupStep st a)).
Proof.
  destruct (dedupStep_cases st a) as [d E _ ->|d E _ ->|E _ ->|E _ _ ->|E _ _ ->];
    try done; simpl.
  - apply mapSet_length.
  - rewrite length_app. lia.
Qed.

Lemma dedupRun_length st xs :
  length (uniqueMap st) ≤ length (uniqueMap (dedupRun st xs)).
Proof.
  revert st. induction xs as [|x xs IH]; intros st; [done|].
  rewrite dedupRun_cons. etrans; [apply dedupStep_length|apply IH].
Qed.

Lemma dedupStep_init_nonempty a : uniqueMap (dedupStep dedupInit a) ≠ [].
Proof.
  destruct (dedupStep_cases dedupInit a) as [d E H _|d E _ ->|E H _|E _ H _|E _ _ ->];
    simpl in *; try done;
    first [by apply elem_of_nil in H | by apply not_elem_of_empty in H].
Qed.

Lemma entriesOk_keys ks (m : jsmap) : entriesOk ks m → m.*1 = recordKey <$> m.*2.
Proof.
  revert ks. induction m as [|[k v] m IH]; intros ks; [done|]. csimpl.
  intros [Hk Hm]. rewrite <- (IH _ Hm). f_equal.
  unfold entryOk, recordKey in *. destruct (usableDoi v); tauto.
Qed.

Lemma entriesOk_middle ks (m1 m2 : jsmap) k v :
  entriesOk ks (m1 ++ (k, v) :: m2) → entryOk (ks ++ m1.*1) k v.
Proof.
  revert ks. induction m1 as [|[k' v'] m1 IH]; intros ks; csimpl.
  - rewrite app_nil_r. tauto.
  - intros [_ H]. specialize (IH _ H). by rewrite <- app_assoc in IH.
Qed.

End DedupMore.

(** X11.  The output is empty only for the empty input, and reading more
    input never makes the output shorter. *)
Theorem deduplicateArticles_nonempty (xs : list article) :
  (deduplicateArticles xs = [] ↔ xs = [])
  ∧ ∀ ys, length (deduplicateArticles xs) ≤ length (deduplicateArticles (xs ++ ys)).
Proof.
  unfold deduplicateArticles, mapValues. split.
  - split; [|by intros ->]. destruct xs as [|x xs]; [done|]. intros H.
    apply (f_equal length) in H. rewrite length_fmap, dedupRun_cons in H.
    pose proof (dedupRun_length (dedupStep dedupInit x) xs) as Hl.
    pose proof (dedupStep_init_nonempty x) as Hn.
    destruct (uniqueMap (dedupStep dedupInit x)); [done|]. simpl in *. lia.
  - intros ys. rewrite !length_fmap, dedupRun_app. apply dedupRun_length.
Qed.

(** X12.  Records that already occur in the input change nothing when they
    come again at the end. *)
Theorem deduplicateArticles_absorbs (xs ys : list article) :
  (∀ y, y ∈ ys → y ∈ xs) →
  deduplicateArticles (xs ++ ys) = deduplicateArticles xs.
Proof.
  intros H. unfold deduplicateArticles. rewrite dedupRun_app.
  rewrite dedupRun_seen; [done|]. intros y Hy. by apply seenBy_input, H.
Qed.

Lemma deduplicateArticles_absorbs_witness :
  deduplicateArticles
    ([Sample.studyA; Sample.trial; Sample.drug0; Sample.drug1]
     ++ [Sample.drug1; Sample.trial; Sample.studyA])
  = deduplicateArticles [Sample.studyA; Sample.trial; Sample.drug0; Sample.drug1].
Proof.
  apply deduplicateArticles_absorbs. intros y Hy.
  repeat (apply elem_of_cons in Hy as [->|Hy]; [set_solver|]).
  by apply elem_of_nil in Hy.
Defined.

(** X13.  No two records of the output are filed under the same key: the
    records with a DOI have different [pmid]s, the records without one
    different composite keys. *)
Theorem deduplicateArticles_keys_distinct (xs : list article) :
  NoDup (recordKey <$> deduplicateArticles xs).
Proof.
  unfold deduplicateArticles, mapValues.
  destruct (dedupInv_run dedupInit xs dedupInv_init) as [Hk He _ _].
  by rewrite <- (entriesOk_keys _ _ He).
Qed.

(** X14.  The output is canonical for the scan: of two records without a
    DOI with the same first author and the same year (holding no [|]), the
    later one is not above the threshold against the earlier one, and their
    normalized titles differ. *)
Theorem deduplicateArticles_canonical xs pre a mid b post :
  deduplicateArticles xs = pre ++ a :: mid ++ b :: post →
  usableDoi a = None → usableDoi b = None →
  firstAuthorOf a = firstAuthorOf b → yearOf a = yearOf b →
  Js.includes bar (yearOf a) = false →
  similarTitles b a = false ∧ normalizedTitleOf a ≠ normalizedTitleOf b.
Proof.
  intros Hout Ea Eb Hauth Hyear Hplain.
  unfold deduplicateArticles, mapValues in Hout.
  destruct (dedupInv_run dedupInit xs dedupInv_init) as [Hk He _ _].
  pose proof (entriesOk_keys _ _ He) as Hkeys.
  apply fmap_app_inv in Hout as (m1 & m' & -> & Hm' & Hum).
  symmetry in Hm'. apply fmap_cons_inv in Hm' as ([ka a'] & m'' & Ha' & Hm'' & ->).
  symmetry in Hm''. apply fmap_app_inv in Hm'' as (m2 & m3' & -> & Hm3 & ->).
  symmetry in Hm3. apply fmap_cons_inv in Hm3 as ([kb b'] & m3 & Hb' & -> & ->).
  simpl in Ha', Hb'. subst a' b'. rewrite Hum in *. clear Hum.
  assert (ka = compositeKeyOf a) as ->.
  { pose proof (entriesOk_middle [] _ _ _ _ He) as H.
    unfold entryOk in H. rewrite Ea in H. tauto. }
  replace (m1 ++ (compositeKeyOf a, a) :: m2 ++ (kb, b) :: m3)
    with ((m1 ++ (compositeKeyOf a, a) :: m2) ++ (kb, b) :: m3) in *
    by (by rewrite <- app_assoc).
  pose proof (entriesOk_middle [] _ _ _ _ He) as H.
  unfold entryOk in H. rewrite Eb in H. destruct H as [-> Hhit]. simpl in Hhit.
  assert (fuzzyHit (normalizedTitleOf b) (firstAuthorOf b) (yearOf b)
            (compositeKeyOf a) = false) as Hf.
  { apply not_true_iff_false. intros Hf.
    apply not_true_iff_false in Hhit. apply Hhit.
    unfold hitAmong. apply existsb_exists. exists (compositeKeyOf a).
    split; [|done]. apply list_elem_of_In. rewrite fmap_app.
    apply elem_of_app. right. apply list_elem_of_here. }
  rewrite fuzzyHit_record in Hf by done.
  rewrite !bool_decide_eq_true_2 in Hf by done. split; [done|].
  intros Ht. rewrite fmap_app in Hk. apply NoDup_app in Hk as (_ & Hk & _).
  apply (Hk (compositeKeyOf a)).
  - rewrite fmap_app. apply elem_of_app. right. apply list_elem_of_here.
  - replace (compositeKeyOf a) with (compositeKeyOf b).
    + apply list_elem_of_here.
    + unfold compositeKeyOf. by rewrite Ht, Hauth, Hyear.
Qed.

Lemma deduplicateArticles_canonical_witness :
  similarTitles Sample.drug2 Sample.drug0 = false
  ∧ normalizedTitleOf Sample.drug0 ≠ normalizedTitleOf Sample.drug2.
Proof.
  apply (deduplicateArticles_canonical
           [Sample.drug0; Sample.drug1; Sample.drug2] [] Sample.drug0 []
           Sample.drug2 []); by vm_compute.
Defined.

Section Order.

(** Without a [pmid] that repeats or looks like a composite key, no entry
    of the map is ever replaced: the values stay in the order of the
    input. *)
Lemma dedupRun_in_order xs :
  (∀ a, a ∈ xs → is_Some (usableDoi a) → Js.includes bar (pmid a) = false) →
  NoDup (pmid <$> filter (λ a, is_Some (usableDoi a)) xs) →
  (uniqueMap (dedupRun dedupInit xs)).*2 `sublist_of` xs
  ∧ ∀ k, k ∈ (uniqueMap (dedupRun dedupInit xs)).*1 →
         Js.includes bar k = true
         ∨ ∃ a, a ∈ xs ∧ is_Some (usableDoi a) ∧ k = pmid a.
Proof.
  induction xs as [|x xs IH] using rev_ind; intros Hplain Hnd.
  { split; [done|]. by intros k ?%elem_of_nil. }
  rewrite filter_app, fmap_app in Hnd.
  apply NoDup_app in Hnd as (Hnd & Hdisj & _).
  destruct IH as [Hsub Hkeys]; [|done|].
  { intros a Ha. apply Hplain, elem_of_app. by left. }
  rewrite dedupRun_snoc.
  set (st := dedupRun dedupInit xs) in *.
  assert (∀ k, k ∈ (uniqueMap st).*1 →
            Js.includes bar k = true
            ∨ ∃ a, a ∈ xs ++ [x] ∧ is_Some (usableDoi a) ∧ k = pmid a) as Hold.
  { intros k [?|(a & Ha & ?)]%Hkeys; [by left|right].
    exists a. split; [|done]. apply elem_of_app. by left. }
  destruct (dedupStep_cases st x) as [d E _ ->|d E _ ->|E _ ->|E _ _ ->|E _ _ ->];
    try (split; [by apply sublist_inserts_r|done]); simpl.
  - assert (pmid x ∉ (uniqueMap st).*1) as Hfresh.
    { intros [Hbar|(a & Ha & Hsome & Heq)]%Hkeys.
      - rewrite Hplain in Hbar; [done| |by eexists].
        apply elem_of_app. right. apply list_elem_of_here.
      - apply (Hdisj (pmid a)).
        + apply list_elem_of_fmap. exists a. split; [done|].
          by apply list_elem_of_filter.
        + rewrite <- Heq, filter_cons, decide_True by (by eexists).
          apply list_elem_of_here. }
    rewrite mapSet_new, !fmap_app by done. split.
    + by apply sublist_app.
    + intros k [Hk|Hk%list_elem_of_singleton]%elem_of_app; [by apply Hold|].
      subst k. right. exists x. split_and!; [|by eexists|done].
      apply elem_of_app. right. apply list_elem_of_here.
  - rewrite !fmap_app. split.
    + by apply sublist_app.
    + intros k [Hk|Hk%list_elem_of_singleton]%elem_of_app; [by apply Hold|].
      subst k. left. apply makeKey_includes.
Qed.

End Order.

(** X15.  When the [pmid]s of the records with a DOI are pairwise different
    and hold no [|], the output keeps the order of the input: it is the
    input with some records left out. *)
Theorem deduplicateArticles_in_order (xs : list article) :
  (∀ a, a ∈ xs → is_Some (usableDoi a) → Js.includes bar (pmid a) = false) →
  NoDup (pmid <$> filter (λ a, is_Some (usableDoi a)) xs) →
  deduplicateArticles xs `sublist_of` xs.
Proof. intros H1 H2. by apply dedupRun_in_order. Qed.

Lemma deduplicateArticles_in_order_witness :
  deduplicateArticles
    [Sample.studyA; Sample.studyADup; Sample.trial; Sample.drug0; Sample.drug1]
  `sublist_of`
    [Sample.studyA; Sample.studyADup; Sample.trial; Sample.drug0; Sample.drug1].
Proof.
  apply deduplicateArticles_in_order.
  - intros a Ha _.
    repeat (apply elem_of_cons in Ha as [->|Ha]; [done|]).
    by apply elem_of_nil in Ha.
  - vm_compute. apply NoDup_cons. split; [|apply NoDup_singleton].
    intros ?%list_elem_of_singleton. discriminate.
Defined.

(** X16.  Records with a usable DOI each, with pairwise different
    normalized DOIs and pairwise different [pmid]s, all pass, in order,
    whatever their titles, authors and years. *)
Theorem deduplicateArticles_distinct_dois (xs : list article) :
  (∀ a, a ∈ xs → is_Some (usableDoi a)) →
  NoDup (omap normDoi xs) → NoDup (pmid <$> xs) →
  deduplicateArticles xs = xs.
Proof.
  intros Hdoi Hnd Hpm.
  set (m := (λ a, (pmid a, a)) <$> xs).
  assert (m.*2 = xs) as H2.
  { unfold m. rewrite <- list_fmap_compose. apply list_fmap_id. }
  assert (m.*1 = pmid <$> xs) as H1.
  { unfold m. by rewrite <- list_fmap_compose. }
  assert (∀ ks, entriesOk ks m) as Hok.
  { unfold m. clear -Hdoi. induction xs as [|x xs IH]; intros ks; [done|].
    csimpl. split.
    - unfold entryOk. destruct (Hdoi x (list_elem_of_here _ _)) as [d ->]. done.
    - apply IH. intros a Ha. by apply Hdoi, list_elem_of_further. }
  pose proof (dedupRun_rebuild m []) as H. simpl app in H.
  rewrite H1, H2 in H. specialize (H Hpm Hnd (Hok _)).
  unfold deduplicateArticles, mapValues.
  change (DedupState [] (seenDois [])) with dedupInit in H. by rewrite H.
Qed.

Lemma deduplicateArticles_distinct_dois_witness :
  deduplicateArticles [Sample.studyA; Sample.first; Sample.doiTrial]
  = [Sample.studyA; Sample.first; Sample.doiTrial].
Proof.
  apply deduplicateArticles_distinct_dois.
  - intros a Ha.
    repeat (apply elem_of_cons in Ha as [->|Ha]; [by eexists|]).
    by apply elem_of_nil in Ha.
  - vm_compute. repeat (apply NoDup_cons; split; [set_solver|]). apply NoDup_nil_2.
  - vm_compute. repeat (apply NoDup_cons; split; [set_solver|]). apply NoDup_nil_2.
Defined.

(** ** The matcher *)

Section Matcher.

Lemma matchHere_lit text p s :
  matchHere (Lit text :: p) s
  = match stripPrefix text s with Some s' => matchHere p s' | None => None end.
Proof. reflexivity. Qed.

Lemma matchHere_greedy cls p c t :
  matchHere (Greedy cls :: p) (String c t)
  = if cls c then
      match matchHere (Greedy cls :: p) t with
      | Some r => Some r
      | None => matchHere p (String c t)
      end
    else matchHere p (String c t).
Proof. reflexivity. Qed.

Lemma matchHere_greedy_end cls p :
  matchHere (Greedy cls :: p) EmptyString = matchHere p EmptyString.
Proof. reflexivity. Qed.

Lemma matchHere_lazy cls p s :
  matchHere (Lazy cls :: p) s
  = match matchHere p s with
    | Some r => Some r
    | None =>
        match s with
        | String c s' => if cls c then matchHere (Lazy cls :: p) s' else None
        | EmptyString => None
        end
    end.
Proof. by destruct s. Qed.

Lemma matchHere_group cls p s :
  matchHere (Group cls :: p) s = groupStar cls (matchHere p) EmptyString s.
Proof.
  cbn [matchHere]. generalize EmptyString as seen.
  induction s as [|c s IH]; intros seen; cbn [groupStar].
  - by destruct (matchHere p EmptyString) as [[??]|].
  - destruct (matchHere p (String c s)) as [[??]|]; [done|].
    destruct (cls c); [apply IH|done].
Qed.

Lemma stripPrefix_length text s s' :
  stripPrefix text s = Some s' →
  String.length s = String.length text + String.length s'.
Proof.
  revert s. induction text as [|a text IH]; intros s H.
  - destruct s; simpl in H; by simplify_eq.
  - destruct s as [|b s]; [done|]. simpl in H.
    destruct (Ascii.eqb (canon a) (canon b)); [|done].
    simpl. by rewrite (IH _ H).
Qed.

Lemma groupStar_length cls k seen s captures rest :
  (∀ s caps rest, k s = Some (caps, rest) → String.length rest ≤ String.length s) →
  groupStar cls k seen s = Some (captures, rest) →
  String.length rest ≤ String.length s.
Proof.
  intros Hk. revert seen. induction s as [|c s IH]; intros seen; cbn [groupStar].
  - destruct (k EmptyString) as [[caps r]|] eqn:E; [|done].
    intros [= <- <-]. by apply (Hk _ _ _ E).
  - destruct (k (String c s)) as [[caps r]|] eqn:E.
    + intros [= <- <-]. by apply (Hk _ _ _ E).
    + destruct (cls c); [|done]. intros H%IH. simpl. lia.
Qed.

(** A match ends inside the input. *)
Lemma matchHere_length p :
  ∀ s captures rest, matchHere p s = Some (captures, rest) →
    String.length rest ≤ String.length s.
Proof.
  induction p as [|[text|cls|cls|cls] p IH]; intros s captures rest.
  - intros [= <- <-]. done.
  - rewrite matchHere_lit. destruct (stripPrefix text s) as [s'|] eqn:E; [|done].
    intros H%IH. apply stripPrefix_length in E. lia.
  - revert captures rest. induction s as [|c s IHs]; intros captures rest.
    + rewrite matchHere_greedy_end. apply IH.
    + rewrite matchHere_greedy. destruct (cls c); [|apply IH].
      destruct (matchHere (Greedy cls :: p) s) as [[caps r]|] eqn:E; [|apply IH].
      intros [= <- <-]. specialize (IHs _ _ eq_refl). simpl. lia.
  - revert captures rest. induction s as [|c s IHs]; intros captures rest;
      rewrite matchHere_lazy.
    + destruct (matchHere p EmptyString) as [[caps r]|] eqn:E; [|done].
      intros [= <- <-]. by apply (IH _ _ _ E).
    + destruct (matchHere p (String c s)) as [[caps r]|] eqn:E.
      * intros [= <- <-]. by apply (IH _ _ _ E).
      * destruct (cls c); [|done]. intros H%IHs. simpl. lia.
  - rewrite matchHere_group. by apply groupStar_length.
Qed.

(** A pattern that starts with a literal takes at least that literal. *)
Lemma matchHere_lit_length text p s captures rest :
  matchHere (Lit text :: p) s = Some (captures, rest) →
  String.length text + String.length rest ≤ String.length s.
Proof.
  rewrite matchHere_lit. destruct (stripPrefix text s) as [s'|] eqn:E; [|done].
  intros H%matchHere_length. apply stripPrefix_length in E. lia.
Qed.

Lemma allChars_rev_app cls s acc :
  allChars cls (String.rev_app s acc) = allChars cls s && allChars cls acc.
Proof.
  revert acc. induction s as [|c s IH]; intros acc; simpl; [done|].
  rewrite IH. simpl. by destruct (cls c), (allChars cls s), (allChars cls acc).
Qed.

Lemma groupStar_captures cls k seen s captures rest :
  (∀ s caps rest, k s = Some (caps, rest) →
     Forall (λ c, allChars cls c = true) caps) →
  allChars cls seen = true →
  groupStar cls k seen s = Some (captures, rest) →
  Forall (λ c, allChars cls c = true) captures.
Proof.
  intros Hk. revert seen. induction s as [|c s IH]; intros seen Hseen;
    cbn [groupStar].
  - destruct (k EmptyString) as [[caps r]|] eqn:E; [|done].
    intros [= <- <-]. constructor; [|by apply (Hk _ _ _ E)].
    unfold String.rev. by rewrite allChars_rev_app, Hseen.
  - destruct (k (String c s)) as [[caps r]|] eqn:E.
    + intros [= <- <-]. constructor; [|by apply (Hk _ _ _ E)].
      unfold String.rev. by rewrite allChars_rev_app, Hseen.
    + destruct (cls c) eqn:Ec; [|done]. apply IH. simpl. by rewrite Ec.
Qed.

(** What a group over a class captures is made of that class. *)
Lemma matchHere_captures cls p :
  groupsOver cls p →
  ∀ s captures rest, matchHere p s = Some (captures, rest) →
    Forall (λ c, allChars cls c = true) captures.
Proof.
  unfold groupsOver.
  induction p as [|[text|cls'|cls'|cls'] p IH]; intros Hp s captures rest;
    [|apply Forall_cons in Hp as [Hi Hp]; specialize (IH Hp)..].
  - intros [= <- <-]. constructor.
  - rewrite matchHere_lit. destruct (stripPrefix text s); [apply IH|done].
  - revert captures rest. induction s as [|c s IHs]; intros captures rest.
    + rewrite matchHere_greedy_end. apply IH.
    + rewrite matchHere_greedy. destruct (cls' c); [|apply IH].
      destruct (matchHere (Greedy cls' :: p) s) as [[caps r]|] eqn:E; [|apply IH].
      intros [= <- <-]. by apply (IHs _ _ eq_refl).
  - revert captures rest. induction s as [|c s IHs]; intros captures rest;
      rewrite matchHere_lazy.
    + destruct (matchHere p EmptyString) as [[caps r]|] eqn:E; [|done].
      intros [= <- <-]. by apply (IH _ _ _ E).
    + destruct (matchHere p (String c s)) as [[caps r]|] eqn:E.
      * intros [= <- <-]. by apply (IH _ _ _ E).
      * destruct (cls' c); [apply IHs|done].
  - subst cls'. rewrite matchHere_group. by apply groupStar_captures.
Qed.

Lemma search_captures cls p s captures rest :
  groupsOver cls p → search p s = Some (captures, rest) →
  Forall (λ c, allChars cls c = true) captures.
Proof.
  intros Hp. induction s as [|c s IH]; simpl.
  - destruct (matchHere p EmptyString) as [[caps r]|] eqn:E; [|done].
    intros [= <- <-]. by apply (matchHere_captures cls p Hp _ _ _ E).
  - destruct (matchHere p (String c s)) as [[caps r]|] eqn:E; [|apply IH].
    intros [= <- <-]. by apply (matchHere_captures cls p Hp _ _ _ E).
Qed.

Lemma group_captured cls p s n text :
  groupsOver cls p → group n (search p s) = Some text → allChars cls text = true.
Proof.
  intros Hp. unfold group. destruct (search p s) as [[caps r]|] eqn:E; [|done].
  simpl. intros H. pose proof (search_captures _ _ _ _ _ Hp E) as Hall.
  by apply (Forall_lookup_1 _ _ _ _ Hall H).
Qed.

End Matcher.

(** ** The records of parseArticles *)

Section Records.

Lemma parseArticles_elem xmlText r :
  r ∈ parseArticles xmlText →
  ∃ b, b ∈ articleBlocksOf xmlText ∧ parseBlock b = Pushed r.
Proof.
  rewrite parseArticles_omap. intros (b & Hb & H)%list_elem_of_omap.
  exists b. split; [done|]. by destruct (parseBlock b); simplify_eq/=.
Qed.

Lemma length_sliceTo n s : String.length (Js.sliceTo n s) ≤ n.
Proof.
  revert s. induction n as [|n IH]; intros [|c s]; simpl; try lia.
  specialize (IH s). lia.
Qed.

Lemma groupsOver_pmid : groupsOver Js.isDot pmidPattern.
Proof. repeat constructor. Qed.

Lemma groupsOver_journal : groupsOver Js.isDot journalPattern.
Proof. repeat constructor. Qed.

Lemma groupsOver_year : groupsOver Js.isDot yearPattern.
Proof. repeat constructor. Qed.

Lemma groupsOver_doi : groupsOver Js.isDot doiPattern.
Proof. repeat constructor. Qed.

End Records.

(** X17.  Every record [parseArticles] returns has a non-empty [pmid], at
    least one author and an abstract of at most 500 code units; and its
    [pmid], journal, year and DOI hold no line break. *)
Theorem parseArticles_records (xmlText : string) (r : article) :
  r ∈ parseArticles xmlText →
  pmid r ≠ EmptyString ∧ authors r ≠ []
  ∧ String.length (abstract r) ≤ 500
  ∧ allChars Js.isDot (pmid r) = true
  ∧ allChars Js.isDot (journal r) = true
  ∧ (∀ y, year r = Some y → allChars Js.isDot y = true)
  ∧ (∀ d, doi r = Some d → allChars Js.isDot d = true).
Proof.
  intros (b & _ & H)%parseArticles_elem. unfold parseBlock in H.
  destruct (group 1 (search pmidPattern b)) as [[|c p]|] eqn:Ep; try done.
  remember (Js.sliceTo 500 _) as ab eqn:Hab in H.
  injection H as <-. cbn [pmid authors abstract journal year doi]. split_and!.
  - done.
  - by destruct (omap _ (matchAll authorPattern b)).
  - rewrite Hab. apply length_sliceTo.
  - by apply (group_captured _ _ _ _ _ groupsOver_pmid Ep).
  - destruct (group 1 (search journalPattern b)) as [j|] eqn:Ej; simpl; [|done].
    by apply (group_captured _ _ _ _ _ groupsOver_journal Ej).
  - intros y Hy. by apply (group_captured _ _ _ _ _ groupsOver_year Hy).
  - intros d Hd. by apply (group_captured _ _ _ _ _ groupsOver_doi Hd).
Qed.

Lemma parseArticles_records_witness :
  let r := Sample.record "111" "One" ["Unknown authors"] None None in
  pmid r ≠ EmptyString ∧ authors r ≠ []
  ∧ String.length (abstract r) ≤ 500
  ∧ allChars Js.isDot (pmid r) = true
  ∧ allChars Js.isDot (journal r) = true
  ∧ (∀ y, year r = Some y → allChars Js.isDot y = true)
  ∧ (∀ d, doi r = Some d → allChars Js.isDot d = true).
Proof.
  intros r. apply (parseArticles_records Sample.xmlThree r).
  vm_compute. apply list_elem_of_here.
Defined.

(** ** Stripping tags *)

Section Tags.

Lemma canon_lt c : Ascii.eqb (canon "<") (canon c) = (Js.code c =? 60).
Proof. destruct c as [[] [] [] [] [] [] [] []]; vm_compute; done. Qed.

Lemma canon_gt c : Ascii.eqb (canon ">") (canon c) = Ascii.eqb c ">".
Proof. destruct c as [[] [] [] [] [] [] [] []]; vm_compute; done. Qed.

Lemma notGt_eqb c : Js.notGt c = negb (Ascii.eqb c ">").
Proof. destruct c as [[] [] [] [] [] [] [] []]; vm_compute; done. Qed.

Lemma lit_gt c t :
  matchHere [Lit ">"] (String c t) = if Ascii.eqb c ">" then Some ([], t) else None.
Proof.
  rewrite matchHere_lit. cbn [stripPrefix]. rewrite canon_gt.
  by destruct (Ascii.eqb c ">"), t.
Qed.

(** [[^>]*>] matches exactly when a [>] follows. *)
Lemma greedy_gt_none s :
  Js.includes ">" s = false → matchHere [Greedy Js.notGt; Lit ">"] s = None.
Proof.
  induction s as [|c s IH]; [done|]. cbn [Js.includes].
  rewrite matchHere_greedy, notGt_eqb, lit_gt.
  destruct (Ascii.eqb c ">"); [done|]. intros H. cbn [negb]. by rewrite (IH H).
Qed.

Lemma greedy_gt_some s :
  Js.includes ">" s = true → matchHere [Greedy Js.notGt; Lit ">"] s ≠ None.
Proof.
  induction s as [|c s IH]; [done|]. cbn [Js.includes].
  rewrite matchHere_greedy, notGt_eqb, lit_gt.
  destruct (Ascii.eqb c ">"); [done|]. intros H%IH. cbn [negb].
  by destruct (matchHere [Greedy Js.notGt; Lit ">"] s).
Qed.

Lemma tag_here c s :
  matchHere tagPattern (String c s)
  = if Js.code c =? 60 then matchHere [Greedy Js.notGt; Lit ">"] s else None.
Proof.
  unfold tagPattern. rewrite matchHere_lit. cbn [stripPrefix].
  rewrite canon_lt. by destruct (Js.code c =? 60), s.
Qed.

Lemma tag_here_none c s :
  matchHere tagPattern (String c s) = None →
  (Js.code c =? 60) && Js.includes ">" s = false.
Proof.
  rewrite tag_here. destruct (Js.code c =? 60); [|done]. simpl.
  destruct (Js.includes ">" s) eqn:E; [|done]. by intros ?%greedy_gt_some.
Qed.

Lemma includes_tail c s : Js.includes ">" s = true → Js.includes ">" (String c s) = true.
Proof. simpl. intros ->. by destruct (Ascii.eqb c ">"). Qed.

(** What is left after a pass of [replace(/<[^>]*>/g, '')]. *)
Lemma scan_tag s :
  ∀ skip,
    noTag (kept (scan tagPattern skip s)) = true
    ∧ (Js.includes ">" (kept (scan tagPattern skip s)) = true →
       Js.includes ">" s = true).
Proof.
  induction s as [|c s IH]; intros skip.
  - cbn [scan]. destruct skip; [|done]. by destruct (matchHere tagPattern EmptyString) as [[??]|].
  - cbn [scan]. destruct skip as [|k].
    + destruct (matchHere tagPattern (String c s)) as [[caps rest]|] eqn:E.
      * pose proof (matchHere_lit_length _ _ _ _ _ E) as Hl.
        cbn [String.length] in Hl.
        rewrite (proj2 (Nat.eqb_neq _ 0)) by (cbn [String.length]; lia).
        cbn [app kept foldr]. destruct (IH (S (String.length s) - String.length rest - 1)) as [H1 H2].
        split; [done|]. intros H. by apply includes_tail, H2.
      * apply tag_here_none in E. destruct (IH 0) as [H1 H2].
        cbn [kept foldr noTag Js.includes]. fold (kept (scan tagPattern 0 s)).
        split.
        -- rewrite H1, andb_true_r. apply negb_true_iff.
           destruct (Js.code c =? 60); [|done]. simpl in *.
           destruct (Js.includes ">" (kept (scan tagPattern 0 s))) eqn:Ei; [|done].
           by rewrite (H2 eq_refl) in E.
        -- destruct (Ascii.eqb c ">"); [done|]. apply H2.
    + destruct (IH k) as [H1 H2]. split; [done|].
      intros H. by apply includes_tail, H2.
Qed.

Lemma noTag_removeAll s : noTag (removeAll tagPattern s) = true.
Proof. apply (scan_tag s 0). Qed.

Lemma noTag_search s : noTag s = true → search tagPattern s = None.
Proof.
  induction s as [|c s IH]; [done|]. cbn [noTag search].
  intros [Hc Hs]%andb_true_iff. apply negb_true_iff in Hc.
  rewrite tag_here. rewrite (IH Hs).
  destruct (Js.code c =? 60); [|done]. simpl in Hc. by rewrite greedy_gt_none.
Qed.

Lemma includes_sliceTo n s :
  Js.includes ">" (Js.sliceTo n s) = true → Js.includes ">" s = true.
Proof.
  revert s. induction n as [|n IH]; intros [|c s]; simpl; try done.
  destruct (Ascii.eqb c ">"); [done|]. apply IH.
Qed.

Lemma noTag_sliceTo n s : noTag s = true → noTag (Js.sliceTo n s) = true.
Proof.
  revert s. induction n as [|n IH]; intros [|c s]; try done.
  cbn [noTag Js.sliceTo]. intros [Hc Hs]%andb_true_iff.
  rewrite (IH _ Hs), andb_true_r. apply negb_true_iff in Hc. apply negb_true_iff.
  destruct (Js.code c =? 60); [|done]. simpl in *.
  destruct (Js.includes ">" (Js.sliceTo n s)) eqn:E; [|done].
  by rewrite (includes_sliceTo _ _ E) in Hc.
Qed.

End Tags.

(** X18.  The title and the abstract of a record hold no tag: the pattern
    that strips tags does not match in them any more. *)
Theorem parseArticles_no_tags (xmlText : string) (r : article) :
  r ∈ parseArticles xmlText →
  search tagPattern (title r) = None ∧ search tagPattern (abstract r) = None.
Proof.
  intros (b & _ & H)%parseArticles_elem. unfold parseBlock in H.
  destruct (group 1 (search pmidPattern b)) as [[|c p]|] eqn:Ep; try done.
  remember (Js.sliceTo 500 _) as ab eqn:Hab in H.
  injection H as <-. cbn [title abstract]. split; apply noTag_search.
  - destruct (group 1 (search titlePattern b)); [apply noTag_removeAll|done].
  - rewrite Hab. apply noTag_sliceTo.
    destruct (group 1 (search abstractPattern b)); [apply noTag_removeAll|done].
Qed.

Lemma parseArticles_no_tags_witness :
  let r := Sample.record "1" "Role of p53 in x > y" ["Unknown authors"] None None in
  search tagPattern (title r) = None ∧ search tagPattern (abstract r) = None.
Proof.
  intros r. apply (parseArticles_no_tags Sample.xmlTags r).
  vm_compute. apply list_elem_of_here.
Defined.

Example tags_stripped :
  title <$> parseArticles
    "<PubmedArticle><PMID>1</PMID><ArticleTitle>Role of <i>p53</i> in <sub>x</sub> > y</ArticleTitle></PubmedArticle>"
  = ["Role of p53 in x > y"].
Proof. by vm_compute. Qed.

(** ** Payloads without a block *)

Section NoBlock.

Lemma search_tail p c s : search p (String c s) = None → search p s = None.
Proof. cbn [search]. by destruct (matchHere p (String c s)). Qed.

Lemma search_here p s : search p s = None → matchHere p s = None.
Proof. destruct s; cbn [search]; by destruct (matchHere p _). Qed.

Lemma search_stripPrefix p text s s' :
  search p s = None → stripPrefix text s = Some s' → search p s' = None.
Proof.
  revert s. induction text as [|a text IH]; intros s Hs H.
  - destruct s; simpl in H; by simplify_eq.
  - destruct s as [|b s]; [done|]. simpl in H.
    destruct (Ascii.eqb (canon a) (canon b)); [|done].
    eapply IH; [|done]. by eapply search_tail.
Qed.

Lemma lazy_none cls p s : search p s = None → matchHere (Lazy cls :: p) s = None.
Proof.
  induction s as [|c s IH]; intros H; rewrite matchHere_lazy, (search_here _ _ H).
  - done.
  - destruct (cls c); [|done]. by eapply IH, search_tail.
Qed.

(** Without the closing tag, or without the opening tag, there is no match
    of the block pattern at any place. *)
Lemma article_none_close s :
  search [Lit "</PubmedArticle>"] s = None → matchHere articlePattern s = None.
Proof.
  intros H. unfold articlePattern. rewrite matchHere_lit.
  destruct (stripPrefix "<PubmedArticle>" s) as [s'|] eqn:E; [|done].
  by eapply lazy_none, search_stripPrefix.
Qed.

Lemma article_none_open s :
  search [Lit "<PubmedArticle>"] s = None → matchHere articlePattern s = None.
Proof.
  intros H%search_here. unfold articlePattern. rewrite matchHere_lit in *.
  by destruct (stripPrefix "<PubmedArticle>" s).
Qed.

Lemma scan_no_hit p q :
  (∀ s, search q s = None → matchHere p s = None) →
  ∀ s skip, search q s = None → hitTexts (scan p skip s) = [].
Proof.
  intros Hpq. induction s as [|c s IH]; intros skip H; cbn [scan].
  - rewrite (Hpq _ H). by destruct skip.
  - destruct skip as [|k]; [rewrite (Hpq _ H); cbn [hitTexts omap]|];
      eapply IH, search_tail; done.
Qed.

Lemma omap_nil_iff {A B} (f : A → option B) (l : list A) :
  omap f l = [] ↔ ∀ x, x ∈ l → f x = None.
Proof.
  induction l as [|x l IH]; csimpl.
  - split; [by intros _ ? ?%elem_of_nil|done].
  - destruct (f x) eqn:E.
    + split; [done|]. intros H. specialize (H x (list_elem_of_here _ _)). congruence.
    + rewrite IH. split.
      * intros H y [->|Hy]%elem_of_cons; auto.
      * intros H y Hy. by apply H, list_elem_of_further.
Qed.

Lemma length_omap {A B} (f : A → option B) (l : list A) :
  length (omap f l) ≤ length l.
Proof. induction l as [|x l IH]; csimpl; [done|]. destruct (f x); simpl; lia. Qed.

Lemma parseArticles_nil xmlText :
  parseArticles xmlText = []
  ↔ ∀ b, b ∈ articleBlocksOf xmlText → blockPmid b = None.
Proof.
  rewrite parseArticles_omap, omap_nil_iff.
  split; intros H b Hb; specialize (H b Hb); pose proof (parseBlock_pushedOf b) as E.
  - by rewrite H in E.
  - rewrite H in E. by destruct (pushedOf (parseBlock b)).
Qed.

Lemma deduplicateArticles_nil xs : deduplicateArticles xs = [] → xs = [].
Proof.
  unfold deduplicateArticles, mapValues. destruct xs as [|x xs]; [done|]. intros H.
  apply (f_equal length) in H. rewrite length_fmap, dedupRun_cons in H.
  pose proof (dedupRun_length (dedupStep dedupInit x) xs) as Hl.
  pose proof (dedupStep_init_nonempty x) as Hn.
  destruct (uniqueMap (dedupStep dedupInit x)); [done|]. simpl in *. lia.
Qed.

End NoBlock.




(** ** The network view *)

Section NetworkView.

Import Network.

Lemma filter_split_perm {A} (P : A → Prop) `{∀ x, Decision (P x)} (l : list A) :
  filter P l ++ filter (λ x, ¬ P x) l ≡ₚ l.
Proof.
  induction l as [|x l IH]; [done|]. rewrite !filter_cons.
  destruct (decide (P x)).
  - rewrite decide_False by tauto. simpl. by rewrite IH.
  - rewrite decide_True by done. rewrite <- Permutation_middle. by rewrite IH.
Qed.

Lemma filter_split_length {A} (P : A → Prop) `{∀ x, Decision (P x)} (l : list A) :
  length (filter P l) + length (filter (λ x, ¬ P x) l) = length l.
Proof. by rewrite <- length_app, filter_split_perm. Qed.

End NetworkView.

(** X21.  The view draws as many articles as there are, up to 20; each
    drawn article is one of the articles of the state, none more often than
    it is there; and as long as no more than 20 articles are expanded,
    every expanded article is drawn. *)
Theorem visibleArticles_cap (g : Network.graph) :
  length (Network.visibleArticles g) = Nat.min 20 (length (Network.allArticles g))
  ∧ Network.visibleArticles g ⊆+ Network.allArticles g
  ∧ (length (filter (λ a, pmid a ∈ Network.expandedNodes g)
                    (Network.allArticles g)) ≤ 20 →
     ∀ a, a ∈ Network.allArticles g → pmid a ∈ Network.expandedNodes g →
          a ∈ Network.visibleArticles g).
Proof.
  unfold Network.visibleArticles.
  set (all := Network.allArticles g). set (ex := Network.expandedNodes g).
  destruct (length all <=? 20) eqn:E.
  { apply Nat.leb_le in E. split_and!; [lia|done|done]. }
  apply Nat.leb_gt in E.
  set (sel := filter (λ a, pmid a ∈ ex) all).
  set (rem := filter (λ a, pmid a ∉ ex) all).
  assert (length sel + length rem = length all) as Hlen
    by apply (filter_split_length (λ a, pmid a ∈ ex) all).
  assert (sel ++ rem ≡ₚ all) as Hperm
    by apply (filter_split_perm (λ a, pmid a ∈ ex) all).
  destruct (length sel <? 20) eqn:Es.
  - apply Nat.ltb_lt in Es. split_and!.
    + rewrite length_take, length_app, length_take. lia.
    + etrans; [apply submseteq_take|]. rewrite <- Hperm.
      apply submseteq_skips_l, submseteq_take.
    + intros _ a Ha Hex.
      rewrite take_ge by (rewrite length_app, length_take; lia).
      apply elem_of_app. left. by apply list_elem_of_filter.
  - apply Nat.ltb_ge in Es. split_and!.
    + rewrite length_take. lia.
    + etrans; [apply submseteq_take|]. rewrite <- Hperm.
      by apply submseteq_inserts_r.
    + intros Hle a Ha Hex. rewrite take_ge by (fold sel; lia).
      by apply list_elem_of_filter.
Qed.

Section Related.

Import Network.

Lemma setAdd_elem x s : x ∈ setAdd x s.
Proof.
  unfold setAdd. destruct (decide (x ∈ s)); [done|].
  apply elem_of_app. right. apply list_elem_of_here.
Qed.

(** What a click adds: the articles of the answer that are not there yet,
    and a link from the clicked node to each of them. *)
Lemma fetchRelatedArticles_added clicked reply g :
  ∃ added,
    allArticles (fetchRelatedArticles clicked reply g) = allArticles g ++ added
    ∧ allLinks (fetchRelatedArticles clicked reply g)
      = allLinks g ++ ((λ a, (clicked, pmid a)) <$> added)
    ∧ (∀ a, a ∈ added → pmid a ∉ pmid <$> allArticles g)
    ∧ (∀ a, a ∈ added → ∃ related, reply = Some related ∧ a ∈ related)
    ∧ (∀ related, reply = Some related → NoDup (pmid <$> related) →
       NoDup (pmid <$> added)).
Proof.
  unfold fetchRelatedArticles.
  assert (∃ added : list article,
            allArticles g = allArticles g ++ added
            ∧ allLinks g = allLinks g ++ ((λ a, (clicked, pmid a)) <$> added)
            ∧ (∀ a, a ∈ added → pmid a ∉ pmid <$> allArticles g)
            ∧ (∀ a, a ∈ added → ∃ related, reply = Some related ∧ a ∈ related)
            ∧ (∀ related, reply = Some related → NoDup (pmid <$> related) →
               NoDup (pmid <$> added))) as Hsame.
  { exists []. rewrite !app_nil_r.
    split_and!; try done; try (by intros a ?%elem_of_nil). intros. constructor. }
  destruct (decide (clicked ∈ expandedNodes g)) as [|Hnot]; [done|].
  destruct reply as [[|r related]|]; [done| |done].
  set (new := filter (λ a, pmid a ∉ pmid <$> allArticles g) (r :: related)).
  destruct new as [|x new'] eqn:En; [done|]. cbn [allArticles allLinks].
  exists (x :: new'). rewrite <- En. split_and!; try done.
  - intros a Ha. unfold new in Ha. by apply list_elem_of_filter in Ha as [? _].
  - intros a Ha. exists (r :: related). split; [done|].
    unfold new in Ha. by apply list_elem_of_filter in Ha as [_ ?].
  - intros ? [= <-] Hnd. eapply sublist_NoDup; [exact Hnd|].
    apply fmap_sublist, sublist_filter.
Qed.

End Related.


(** X23.  Once a node has been expanded by an answer with at least one
    article, clicking it again changes nothing, whatever comes back. *)
Theorem fetchRelatedArticles_once clicked related reply (g : Network.graph) :
  related ≠ [] →
  Network.fetchRelatedArticles clicked reply
    (Network.fetchRelatedArticles clicked (Some related) g)
  = Network.fetchRelatedArticles clicked (Some related) g.
Proof.
  intros Hne. set (g' := Network.fetchRelatedArticles clicked (Some related) g).
  assert (clicked ∈ Network.expandedNodes g') as Hin.
  { unfold g', Network.fetchRelatedArticles.
    destruct (decide (clicked ∈ Network.expandedNodes g)); [done|].
    destruct related as [|r related]; [done|].
    destruct (filter _ (r :: related)); cbn [Network.expandedNodes];
      apply setAdd_elem. }
  unfold Network.fetchRelatedArticles at 1. by rewrite decide_True.
Qed.

Lemma fetchRelatedArticles_once_witness :
  Network.fetchRelatedArticles "1" None
    (Network.fetchRelatedArticles "1" (Some [Sample.trial])
       (Network.reset [Sample.studyA]))
  = Network.fetchRelatedArticles "1" (Some [Sample.trial])
      (Network.reset [Sample.studyA]).
Proof. by apply fetchRelatedArticles_once. Defined.

(** ** The states of the view *)

Section Reachable.

Import Network.

Lemma filter_whole {A} (P : A → Prop) `{∀ x, Decision (P x)} (l : list A) :
  Forall P l → filter P l = l.
Proof.
  induction 1 as [|x l Hx Hl IH]; [done|].
  by rewrite filter_cons_True, IH.
Qed.

Lemma take_elem {A} n (l : list A) x : x ∈ take n l → x ∈ l.
Proof.
  intros Hx. rewrite <-(take_drop n l). apply elem_of_app. by left.
Qed.

Lemma visibleArticles_elem g a : a ∈ visibleArticles g → a ∈ allArticles g.
Proof.
  unfold visibleArticles. destruct (length (allArticles g) <=? 20); [done|].
  intros Ha%take_elem.
  destruct (length (filter _ (allArticles g)) <? 20).
  - apply elem_of_app in Ha as [Ha|Ha%take_elem].
    + by apply list_elem_of_filter in Ha as [_ ?].
    + by apply list_elem_of_filter in Ha as [_ ?].
  - by apply list_elem_of_filter in Ha as [_ ?].
Qed.

Lemma fetchRelatedArticles_expanded clicked reply g :
  (∀ x, x ∈ expandedNodes g →
        x ∈ expandedNodes (fetchRelatedArticles clicked reply g))
  ∧ (allLinks (fetchRelatedArticles clicked reply g) ≠ allLinks g →
     clicked ∈ expandedNodes (fetchRelatedArticles clicked reply g)).
Proof.
  assert (∀ x, x ∈ expandedNodes g → x ∈ setAdd clicked (expandedNodes g))
    as Hadd.
  { intros x Hx. unfold setAdd. case_decide; [done|].
    apply elem_of_app. by left. }
  unfold fetchRelatedArticles.
  destruct (decide (clicked ∈ expandedNodes g)) as [|Hnot]; [done|].
  destruct reply as [[|r related]|]; [done| |done].
  destruct (filter _ (r :: related)); cbn [expandedNodes allLinks].
  - done.
  - split; [done|]. intros _. apply setAdd_elem.
Qed.

End Reachable.

(** X24.  In every state of the view, the articles are those of the search
    followed by the added ones; the links lead, in the same order, to the
    added articles, one to each, from nodes that are articles and have
    been expanded; and while there are at most 20 articles, every link is
    drawn. *)
Theorem reachable_links (articles : list article) (g : Network.graph) :
  Network.reachable articles g →
  ∃ added,
    Network.allArticles g = articles ++ added
    ∧ (Network.allLinks g).*2 = pmid <$> added
    ∧ (∀ l, l ∈ Network.allLinks g →
         l.1 ∈ Network.expandedNodes g
         ∧ l.1 ∈ pmid <$> Network.allArticles g)
    ∧ (length (Network.allArticles g) ≤ 20 →
       Network.visibleLinks g = Network.allLinks g).
Proof.
  intros Hg.
  assert (∃ added,
    Network.allArticles g = articles ++ added
    ∧ (Network.allLinks g).*2 = pmid <$> added
    ∧ (∀ l, l ∈ Network.allLinks g →
         l.1 ∈ Network.expandedNodes g
         ∧ l.1 ∈ pmid <$> Network.allArticles g)) as (added & Ha & Hl & Hs).
  { induction Hg as [|g clicked reply Hg (added & Ha & Hl & Hs) Hc].
    - exists []. cbn. rewrite app_nil_r. split_and!; [done..|].
      by intros l ?%elem_of_nil.
    - destruct (fetchRelatedArticles_added clicked reply g)
        as (new & Ha' & Hl' & _).
      destruct (fetchRelatedArticles_expanded clicked reply g) as [Hold Hnew].
      exists (added ++ new). rewrite Ha', Hl', Ha in *.
      split_and!.
      + by rewrite app_assoc.
      + rewrite !fmap_app, Hl. f_equal.
        rewrite <-!list_fmap_compose. done.
      + assert (clicked ∈ pmid <$> articles ++ added) as Hin.
        { apply list_elem_of_fmap in Hc as (a & -> & Hv).
          apply list_elem_of_fmap. exists a. split; [done|].
          rewrite <-Ha. by apply visibleArticles_elem. }
        intros l [Hin'|Hin']%elem_of_app.
        * destruct (Hs l Hin') as [? ?]. split; [by apply Hold|].
          rewrite fmap_app. apply elem_of_app. by left.
        * apply list_elem_of_fmap in Hin' as (a & -> & Hnew'). cbn.
          split.
          -- apply Hnew. destruct new; [by apply elem_of_nil in Hnew'|].
             cbn. intros Heq. apply (f_equal length) in Heq.
             rewrite length_app in Heq. cbn in Heq. lia.
          -- rewrite fmap_app. apply elem_of_app. by left. }
  exists added. split_and!; [done..|].
  intros Hlen. unfold Network.visibleLinks, Network.visibleArticles.
  rewrite (proj2 (Nat.leb_le _ _) Hlen).
  apply filter_whole, Forall_forall. intros l Hin. split; [by apply Hs|].
  rewrite Ha, fmap_app. apply elem_of_app. right. rewrite <-Hl.
  apply list_elem_of_fmap. by exists l.
Qed.

Lemma reachable_links_witness :
  let g := Network.fetchRelatedArticles "1" (Some [Sample.trial])
             (Network.reset [Sample.studyA]) in
  ∃ added,
    Network.allArticles g = [Sample.studyA] ++ added
    ∧ (Network.allLinks g).*2 = pmid <$> added
    ∧ (∀ l, l ∈ Network.allLinks g →
         l.1 ∈ Network.expandedNodes g
         ∧ l.1 ∈ pmid <$> Network.allArticles g)
    ∧ (length (Network.allArticles g) ≤ 20 →
       Network.visibleLinks g = Network.allLinks g).
Proof.
  intros g. apply (reachable_links [Sample.studyA] g).
  apply Network.reachable_click; [apply Network.reachable_reset|].
  vm_compute. apply list_elem_of_here.
Defined.

(** ** Path highlighting *)

Section PathSearch.

Import Paths.

Variable allLinks : list link.
Variable startId : string.
Variable maxDepth : nat.

Lemma visitLink_found nodeId depth st l :
  visitLink nodeId depth maxDepth st l
  = match found nodeId depth maxDepth (visited st) l with
    | Some c =>
        {| visited := visited st;
           queue := queue st ++ [(c.1, depth + 1)];
           pathNodes := pathNodes st ∪ {[c.1]};
           pathLinks := pathLinks st ∪ {[c.2]} |}
    | None => st
    end.
Proof.
  unfold visitLink, found.
  destruct (connected nodeId (visited st) l) as [[c i]|]; cbn -[Nat.ltb]; [|done].
  by destruct (truthy c && truthy i && (depth <? maxDepth)).
Qed.

(** The state after [forEach]. *)
Lemma foldl_visitLink nodeId depth ls st :
  let cs := omap (found nodeId depth maxDepth (visited st)) ls in
  let st' := foldl (visitLink nodeId depth maxDepth) st ls in
  visited st' = visited st
  ∧ queue st' = queue st ++ ((λ c, (c.1, depth + 1)) <$> cs)
  ∧ (∀ v, v ∈ pathNodes st' ↔ v ∈ pathNodes st ∨ v ∈ cs.*1)
  ∧ (∀ i, i ∈ pathLinks st' ↔ i ∈ pathLinks st ∨ i ∈ cs.*2).
Proof.
  revert st. induction ls as [|l ls IH]; intros st; cbn zeta.
  - cbn. rewrite app_nil_r. split_and!; try done; intros x; set_solver.
  - cbn [foldl omap list_omap].
    specialize (IH (visitLink nodeId depth maxDepth st l)). cbn zeta in IH.
    destruct IH as (Hv & Hq & Hn & Hl).
    rewrite visitLink_found in Hv, Hq, Hn, Hl |- *.
    destruct (found nodeId depth maxDepth (visited st) l) as [c|] eqn:Hc.
    + cbn in Hv, Hq, Hn, Hl. rewrite Hv, Hq. split_and!; [done|..].
      * by rewrite <-app_assoc.
      * intros v. rewrite Hn. set_solver.
      * intros i. rewrite Hl. set_solver.
    + by rewrite Hv, Hq.
Qed.

Lemma found_inv nodeId depth V l c :
  found nodeId depth maxDepth V l = Some c →
  depth < maxDepth ∧ c.1 ≠ EmptyString ∧ (c.1 ∉ V)
  ∧ c.2 = l.1 +:+ "-" +:+ l.2
  ∧ ((l.1 = nodeId ∧ l.2 = c.1) ∨ (l.2 = nodeId ∧ l.1 = c.1)).
Proof.
  unfold found. destruct (connected nodeId V l) as [c'|] eqn:Hc; [|done].
  cbn -[Nat.ltb]. unfold truthy.
  destruct (depth <? maxDepth) eqn:Hd;
    [apply Nat.ltb_lt in Hd|by rewrite andb_false_r].
  do 2 (case_bool_decide; [|done]). cbn. intros [= ->].
  revert Hc. unfold connected. destruct l as [s t]; cbn.
  repeat case_bool_decide; cbn; try done; intros [= <-]; naive_solver.
Qed.

Lemma linkId_truthy s t : truthy (s +:+ "-" +:+ t) = true.
Proof.
  unfold truthy. apply bool_decide_eq_true. by destruct s.
Qed.

Lemma found_adjacent nodeId depth V v :
  depth < maxDepth → nodeId ∈ V → v ∉ V → adjacent allLinks nodeId v →
  ∃ c, c ∈ omap (found nodeId depth maxDepth V) allLinks ∧ c.1 = v.
Proof.
  intros Hd Hn Hv [Hne Hl].
  assert (v ≠ nodeId) as Hvn by (intros ->; done).
  assert (∃ l, l ∈ allLinks
               ∧ found nodeId depth maxDepth V l
                 = Some (v, l.1 +:+ "-" +:+ l.2)) as (l & Hin & Hf).
  { assert (∃ l, l ∈ allLinks
               ∧ connected nodeId V l = Some (v, l.1 +:+ "-" +:+ l.2))
      as (l & Hin & Hc).
    { destruct Hl as [Hl|Hl]; eexists; (split; [exact Hl|]).
      all: unfold connected; cbn.
      all: repeat case_bool_decide; cbn; naive_solver. }
    exists l. split; [done|]. unfold found. rewrite Hc. cbn -[Nat.ltb].
    rewrite linkId_truthy, (proj2 (Nat.ltb_lt _ _) Hd). unfold truthy.
    by rewrite bool_decide_eq_true_2. }
  exists (v, l.1 +:+ "-" +:+ l.2). split; [|done].
  apply list_elem_of_omap. eauto.
Qed.

(** *** The loop ends *)

Lemma pending_visit nodeId depth V l :
  nodeId ∉ V →
  length (option_list (found nodeId depth maxDepth (V ∪ {[nodeId]}) l))
  + pending (V ∪ {[nodeId]}) l ≤ pending V l.
Proof.
  intros Hn. unfold pending.
  destruct (found _ _ _ _ l) as [c|] eqn:Hc; cbn [option_list length].
  - apply found_inv in Hc as (_ & _ & _ & _ & Hl).
    repeat case_bool_decide; try lia; set_solver.
  - repeat case_bool_decide; try lia; set_solver.
Qed.

Lemma pending_visit_all nodeId depth V ls :
  nodeId ∉ V →
  length (omap (found nodeId depth maxDepth (V ∪ {[nodeId]})) ls)
  + sum_list (pending (V ∪ {[nodeId]}) <$> ls)
  ≤ sum_list (pending V <$> ls).
Proof.
  intros Hn. induction ls as [|l ls IH]; [done|].
  pose proof (pending_visit nodeId depth V l Hn) as Hl.
  cbn [omap list_omap fmap list_fmap sum_list sum_list_with].
  destruct (found _ _ _ _ l); unfold sum_list, id in *; cbn in Hl;
    cbn [length]; lia.
Qed.

Lemma potential_turn nodeId depth rest st :
  queue st = (nodeId, depth) :: rest →
  potential allLinks (turn allLinks maxDepth nodeId depth rest st)
  < potential allLinks st.
Proof.
  intros Hq. unfold potential, turn. rewrite Hq.
  destruct (bool_decide (nodeId ∈ visited st) || (maxDepth <? depth)) eqn:Hc.
  - cbn. lia.
  - apply orb_false_iff in Hc as [Hv%bool_decide_eq_false _].
    match goal with |- context [foldl _ ?s _] =>
      destruct (foldl_visitLink nodeId depth allLinks s) as (-> & -> & _)
    end. cbn [visited queue].
    rewrite length_app, length_fmap.
    pose proof (pending_visit_all nodeId depth (visited st) allLinks Hv).
    cbn [length]. lia.
Qed.

Lemma loop_returns fuel st :
  potential allLinks st ≤ fuel → is_Some (loop fuel allLinks maxDepth st).
Proof.
  revert st. induction fuel as [|fuel IH]; intros st Hp.
  - unfold potential in Hp. destruct (queue st) as [|e q] eqn:Hq.
    + cbn. by rewrite Hq.
    + cbn in Hp. lia.
  - cbn. destruct (queue st) as [|[nodeId depth] rest] eqn:Hq; [done|].
    apply IH. pose proof (potential_turn nodeId depth rest st Hq). lia.
Qed.

Lemma loop_more fuel fuel' st r :
  loop fuel allLinks maxDepth st = Some r → fuel ≤ fuel' →
  loop fuel' allLinks maxDepth st = Some r.
Proof.
  revert fuel' st. induction fuel as [|fuel IH]; intros fuel' st.
  - cbn. destruct (queue st) as [|[nodeId depth] rest] eqn:Hq; [|done].
    intros [= <-] _. destruct fuel'; cbn; by rewrite Hq.
  - cbn. destruct (queue st) as [|[nodeId depth] rest] eqn:Hq.
    + intros [= <-] _. destruct fuel'; cbn; by rewrite Hq.
    + intros Hr Hle. destruct fuel' as [|fuel']; [lia|].
      cbn. rewrite Hq. apply IH; [done|lia].
Qed.

Lemma loop_invariant (P : walk → Prop) :
  (∀ st nodeId depth rest,
     P st → queue st = (nodeId, depth) :: rest →
     P (turn allLinks maxDepth nodeId depth rest st)) →
  ∀ fuel st r,
    P st → loop fuel allLinks maxDepth st = Some r → P r ∧ queue r = [].
Proof.
  intros Hturn fuel. induction fuel as [|fuel IH]; intros st r HP; cbn.
  - destruct (queue st) as [|[nodeId depth] rest] eqn:Hq; [|done].
    by intros [= <-].
  - destruct (queue st) as [|[nodeId depth] rest] eqn:Hq.
    + by intros [= <-].
    + apply IH. by apply Hturn.
Qed.

Lemma potential_start :
  potential allLinks (start startId) ≤ 2 * length allLinks + 1.
Proof.
  unfold potential. cbn [start queue visited length].
  assert (sum_list (pending ∅ <$> allLinks) ≤ 2 * length allLinks); [|lia].
  induction allLinks as [|l ls IH]; [done|].
  cbn [fmap list_fmap sum_list sum_list_with length].
  assert (pending ∅ l ≤ 2); [|unfold sum_list, id in *; lia].
  unfold pending. repeat case_bool_decide; lia.
Qed.

(** *** The queue, level by level *)

Lemma levels_cons_inv d u k rest :
  levels d ((u, k) :: rest) →
  (k = d ∧ levels d rest) ∨ (k = S d ∧ Forall (λ e, e.2 = S d) rest).
Proof.
  intros (qa & qb & Hq & Ha & Hb). destruct qa as [|e qa].
  - cbn in Hq. subst qb. apply Forall_cons in Hb as [Hk Hb]. by right.
  - cbn in Hq. injection Hq as <- ->.
    apply Forall_cons in Ha as [Hk Ha]. left. split; [done|].
    by exists qa, qb.
Qed.

Lemma levels_app d q new :
  levels d q → Forall (λ e, e.2 = S d) new → levels d (q ++ new).
Proof.
  intros (qa & qb & -> & Ha & Hb) Hnew. exists qa, (qb ++ new).
  split_and!; [by rewrite app_assoc|done|by apply Forall_app].
Qed.

Lemma levels_next d q : Forall (λ e, e.2 = S d) q → levels (S d) q.
Proof. intros Hq. exists q, []. by rewrite app_nil_r. Qed.

Lemma searching_start : searching allLinks startId maxDepth 0 (start startId).
Proof.
  split; cbn [start queue visited pathNodes pathLinks].
  - exists [(startId, 0)], []. split_and!; [done|by repeat constructor|done].
  - intros v k [= -> ->]%list_elem_of_singleton. split; [lia|constructor].
  - set_solver.
  - lia.
  - intros v Hv. inversion Hv; subst. right. apply list_elem_of_here.
  - set_solver.
  - set_solver.
  - set_solver.
  - set_solver.
Qed.

(** When the entry at the front has depth [d + 1], the entries of depth
    [d] are used up. *)
Lemma searching_shift d st u rest :
  searching allLinks startId maxDepth d st →
  queue st = (u, S d) :: rest →
  searching allLinks startId maxDepth (S d) st.
Proof.
  intros [Hlev Hq Hvis Hbelow Hlevel Hnext Hlo Hhi Hlinks] Hqueue.
  assert (Forall (λ e, e.2 = S d) (queue st)) as Hall.
  { rewrite Hqueue in Hlev |- *.
    apply levels_cons_inv in Hlev as [[? _]|[_ ?]]; [lia|].
    by apply Forall_cons. }
  assert (∀ v, (v, d) ∉ queue st) as Hno.
  { intros v Hv. rewrite Forall_forall in Hall.
    apply Hall in Hv. cbn in Hv. lia. }
  assert (d < maxDepth) as Hd.
  { destruct (Hq u (S d)) as [? _]; [|lia].
    rewrite Hqueue. apply list_elem_of_here. }
  assert (∀ v, within allLinks startId d v → v ∈ visited st) as Hdone.
  { intros v Hv. destruct (Hlevel v Hv) as [?|?]; [done|]. by destruct (Hno v). }
  split; try done.
  - by apply levels_next.
  - intros j v Hj Hv. destruct (decide (j = d)) as [->|Hne].
    + by apply Hdone.
    + apply (Hbelow j); [lia|done].
  - intros v Hv. inversion Hv as [|k u' v' Hu Hne Hl]; subst.
    destruct (Hnext Hd u' v) as [?|[?|?]];
      [by apply Hdone|done|by left|by destruct (Hno v)|by right].
  - intros _ u' v Hu Hadj.
    destruct (Hnext Hd u' v Hu Hadj) as [?|[?|?]];
      [by left|by destruct (Hno v)|by right; left].
Qed.

Lemma searching_skip d st u rest :
  searching allLinks startId maxDepth d st →
  queue st = (u, d) :: rest →
  u ∈ visited st →
  searching allLinks startId maxDepth d
    {| visited := visited st; queue := rest;
       pathNodes := pathNodes st; pathLinks := pathLinks st |}.
Proof.
  intros [Hlev Hq Hvis Hbelow Hlevel Hnext Hlo Hhi Hlinks] Hqueue Hu.
  rewrite Hqueue in *.
  split; cbn [visited queue pathNodes pathLinks]; try done.
  - apply levels_cons_inv in Hlev as [[_ ?]|[? _]]; [done|lia].
  - intros v k Hv. apply Hq. by apply list_elem_of_further.
  - intros v Hv.
    destruct (Hlevel v Hv) as [?|[[= -> ]|?]%elem_of_cons]; auto.
  - intros Hd u' v Hu' Hadj.
    destruct (Hnext Hd u' v Hu' Hadj)
      as [?|[[[= -> ]|?]%elem_of_cons|[[= ]|?]%elem_of_cons]];
      auto; lia.
  - intros v Hv. destruct (Hhi v Hv) as [?|Hin]; [by left|].
    cbn in Hin. apply elem_of_cons in Hin as [->|?]; auto.
Qed.

Lemma searching_visit d st u rest :
  searching allLinks startId maxDepth d st →
  queue st = (u, d) :: rest →
  u ∉ visited st →
  searching allLinks startId maxDepth d
    (foldl (visitLink u d maxDepth)
       {| visited := visited st ∪ {[u]}; queue := rest;
          pathNodes := pathNodes st ∪ {[u]}; pathLinks := pathLinks st |}
       allLinks).
Proof.
  intros [Hlev Hq Hvis Hbelow Hlevel Hnext Hlo Hhi Hlinks] Hqueue Hu.
  rewrite Hqueue in *.
  match goal with |- context [foldl _ ?s _] =>
    destruct (foldl_visitLink u d allLinks s) as (Hv' & Hq' & Hn' & Hl')
  end.
  cbn [visited queue pathNodes pathLinks] in Hv', Hq', Hn', Hl'.
  set (cs := omap (found u d maxDepth (visited st ∪ {[u]})) allLinks) in *.
  destruct (Hq u d) as [Hud Hwu]; [apply list_elem_of_here|].
  assert (∀ c, c ∈ cs →
    d < maxDepth ∧ within allLinks startId (S d) c.1 ∧ (c.1 ∉ visited st)
    ∧ c.1 ≠ u
    ∧ ∃ s t, (s, t) ∈ allLinks ∧ c.2 = s +:+ "-" +:+ t
             ∧ ((s = u ∧ t = c.1) ∨ (t = u ∧ s = c.1))) as Hcs.
  { intros c (l & Hin & Hf)%list_elem_of_omap.
    apply found_inv in Hf as (Hd & Hne & Hnv & Hid & Hl).
    destruct l as [s t]. cbn in Hid, Hl.
    split_and!; [done| |set_solver|set_solver|by exists s, t].
    apply (within_step _ _ d u); [done..|].
    destruct Hl as [[-> ->]|[-> ->]]; auto. }
  split; rewrite ?Hv', ?Hq'.
  - apply levels_app.
    + apply levels_cons_inv in Hlev as [[_ ?]|[? _]]; [done|lia].
    + apply Forall_fmap, Forall_forall. intros c _. cbn. lia.
  - intros v k [Hin|Hin]%elem_of_app.
    + apply Hq. by apply list_elem_of_further.
    + apply list_elem_of_fmap in Hin as (c & [= -> ->] & Hc).
      destruct (Hcs c Hc) as (Hd & Hw & _). rewrite Nat.add_1_r.
      split; [lia|done].
  - intros v [Hv| ->%elem_of_singleton]%elem_of_union; eauto.
  - intros j v Hj Hv. apply elem_of_union_l. by apply (Hbelow j).
  - intros v Hv.
    destruct (Hlevel v Hv) as [?|[[= -> ]|?]%elem_of_cons].
    + left. set_solver.
    + left. set_solver.
    + right. apply elem_of_app. by left.
  - intros Hd u' v [Hu'| ->%elem_of_singleton]%elem_of_union Hadj.
    + destruct (Hnext Hd u' v Hu' Hadj)
        as [?|[[[= -> ]|?]%elem_of_cons|[[= ]|?]%elem_of_cons]].
      * left. set_solver.
      * left. set_solver.
      * right; left. apply elem_of_app. by left.
      * lia.
      * right; right. apply elem_of_app. by left.
    + destruct (decide (v ∈ visited st ∪ {[u]})) as [?|Hv]; [by left|].
      right; right. apply elem_of_app. right.
      destruct (found_adjacent u d (visited st ∪ {[u]}) v) as (c & Hc & <-);
        [done|set_solver|done|done|].
      apply list_elem_of_fmap. exists c. by rewrite Nat.add_1_r.
  - intros v Hv. apply Hn'. left. set_solver.
  - intros v [[Hv| ->%elem_of_singleton]%elem_of_union|Hv]%Hn'.
    + destruct (Hhi v Hv) as [?|Hin]; [left; set_solver|].
      cbn in Hin. apply elem_of_cons in Hin as [->|?]; [left; set_solver|].
      right. rewrite fmap_app. apply elem_of_app. by left.
    + left. set_solver.
    + right. rewrite fmap_app. apply elem_of_app. right.
      apply list_elem_of_fmap in Hv as (c & -> & Hc).
      apply list_elem_of_fmap. exists (c.1, d + 1). split; [done|].
      apply list_elem_of_fmap. by exists c.
  - intros i [Hi|Hi]%Hl'.
    + destruct (Hlinks i Hi) as (s & t & Hin & -> & Hne & Hs & Ht).
      exists s, t. split_and!; [done..| |]; apply Hn'; left; set_solver.
    + apply list_elem_of_fmap in Hi as (c & -> & Hc).
      destruct (Hcs c Hc) as (_ & _ & _ & Hcu & s & t & Hin & Hid & Hl).
      assert (c.1 ∈ cs.*1) as Hc1 by (apply list_elem_of_fmap; by exists c).
      exists s, t. split_and!; [done|done|..].
      * destruct Hl as [[-> ->]|[-> ->]]; congruence.
      * destruct Hl as [[-> _]|[_ ->]]; apply Hn'; [left; set_solver|by right].
      * destruct Hl as [[_ ->]|[-> _]]; apply Hn'; [by right|left; set_solver].
Qed.

Lemma searching_turn st nodeId depth rest :
  (∃ d, searching allLinks startId maxDepth d st) →
  queue st = (nodeId, depth) :: rest →
  ∃ d, searching allLinks startId maxDepth d
         (turn allLinks maxDepth nodeId depth rest st).
Proof.
  intros [d Hs] Hqueue.
  assert (searching allLinks startId maxDepth depth st) as Hs'.
  { pose proof (inv_levels _ _ _ _ _ Hs) as Hlev. rewrite Hqueue in Hlev.
    apply levels_cons_inv in Hlev as [[-> _]|[-> _]]; [done|].
    by apply (searching_shift d st nodeId rest). }
  exists depth. unfold turn.
  destruct (inv_queue _ _ _ _ _ Hs' nodeId depth) as [Hle _];
    [rewrite Hqueue; apply list_elem_of_here|].
  rewrite (proj2 (Nat.ltb_ge _ _) Hle), orb_false_r.
  case_bool_decide.
  - by apply searching_skip with nodeId.
  - by apply searching_visit.
Qed.

(** The state in which the loop ends. *)
Lemma loop_ends :
  ∃ st d,
    loop (2 * length allLinks + 1) allLinks maxDepth (start startId) = Some st
    ∧ searching allLinks startId maxDepth d st ∧ queue st = [].
Proof.
  destruct (loop_returns (2 * length allLinks + 1) (start startId))
    as [st Hst]; [apply potential_start|].
  destruct (loop_invariant
              (λ st, ∃ d, searching allLinks startId maxDepth d st)
              searching_turn _ _ _ (ex_intro _ 0 searching_start) Hst)
    as [[d Hs] Hq].
  by exists st, d.
Qed.

Lemma searching_complete d st :
  searching allLinks startId maxDepth d st → queue st = [] →
  ∀ k v, within allLinks startId k v → k ≤ maxDepth → v ∈ visited st.
Proof.
  intros [Hlev Hq Hvis Hbelow Hlevel Hnext Hlo Hhi Hlinks] Hqueue.
  rewrite Hqueue in *.
  assert (∀ k v, k ≤ d → within allLinks startId k v → v ∈ visited st) as Hlow.
  { intros k v Hk Hv. destruct (decide (k = d)) as [->|Hne].
    - destruct (Hlevel v Hv) as [?|?%elem_of_nil]; done.
    - apply (Hbelow k); [lia|done]. }
  intros k v Hv. induction Hv as [|k u v Hu IH Hne Hl]; intros Hk.
  - apply (Hlow 0); [lia|constructor].
  - destruct (decide (S k ≤ d)) as [Hle|Hgt].
    + apply (Hlow (S k)); [done|]. by apply (within_step _ _ k u).
    + destruct (Hnext ltac:(lia) u v) as [?|[?%elem_of_nil|?%elem_of_nil]];
        [apply IH; lia|done|done..].
Qed.

End PathSearch.

(** Walks can be joined, and walked back. *)
Lemma within_app allLinks u v w j k :
  Paths.within allLinks u j v → Paths.within allLinks v k w →
  Paths.within allLinks u (j + k) w.
Proof.
  intros Hu Hv. induction Hv as [|k x w Hx IH Hne Hl].
  - by rewrite Nat.add_0_r.
  - rewrite Nat.add_succ_r. by apply (Paths.within_step _ _ _ x).
Qed.

Lemma within_nonempty allLinks u v k :
  Paths.within allLinks u k v → u ≠ EmptyString → v ≠ EmptyString.
Proof. by destruct 1. Qed.

Lemma within_back allLinks u v k :
  Paths.within allLinks u k v → u ≠ EmptyString →
  Paths.within allLinks v k u.
Proof.
  intros Hv Hu. induction Hv as [|k x v Hx IH Hne Hl]; [constructor|].
  apply (within_app _ _ x _ 1 k); [|done].
  apply (Paths.within_step _ _ 0 v); [constructor| |tauto].
  by apply (within_nonempty allLinks u x k).
Qed.

(** The nodes of the result, by the walks of the network. *)
Lemma findPath_reach allLinks startId maxDepth nodes links :
  Paths.findPath allLinks startId maxDepth = Some (nodes, links) →
  ∀ v, v ∈ nodes ↔ ∃ k, k ≤ maxDepth ∧ Paths.within allLinks startId k v.
Proof.
  destruct (loop_ends allLinks startId maxDepth) as (st & d & Hst & Hs & Hq).
  unfold Paths.findPath. rewrite Hst. intros [= <- <-] v. split.
  - intros Hv. apply (Paths.inv_visited _ _ _ _ _ Hs).
    destruct (Paths.inv_nodes_hi _ _ _ _ _ Hs v Hv) as [?|Hin]; [done|].
    rewrite Hq in Hin. by apply elem_of_nil in Hin.
  - intros (k & Hk & Hw). apply (Paths.inv_nodes_lo _ _ _ _ _ Hs).
    by apply (searching_complete allLinks startId maxDepth d st Hs Hq k).
Qed.

(** X25.  [findPath] returns, and the nodes it returns are the start and
    the nodes at most [maxDepth] links away from it, links being followed
    in either direction and only to non-empty identifiers. *)
Theorem findPath_nodes (allLinks : list Paths.link) (startId : string)
    (maxDepth : nat) :
  ∃ nodes links,
    Paths.findPath allLinks startId maxDepth = Some (nodes, links)
    ∧ ∀ v, v ∈ nodes
           ↔ ∃ k, k ≤ maxDepth ∧ Paths.within allLinks startId k v.
Proof.
  destruct (loop_ends allLinks startId maxDepth) as (st & d & Hst & _).
  assert (Paths.findPath allLinks startId maxDepth
          = Some (Paths.pathNodes st, Paths.pathLinks st)) as Hrun.
  { unfold Paths.findPath. by rewrite Hst. }
  exists (Paths.pathNodes st), (Paths.pathLinks st).
  split; [done|]. by apply findPath_reach with (Paths.pathLinks st).
Qed.

(** X26.  Every link identifier [findPath] returns is that of a link of
    the network with two different ends, both among the nodes returned. *)
Theorem findPath_links allLinks startId maxDepth nodes links :
  Paths.findPath allLinks startId maxDepth = Some (nodes, links) →
  ∀ id, id ∈ links →
    ∃ s t, (s, t) ∈ allLinks ∧ id = s +:+ "-" +:+ t ∧ s ≠ t
           ∧ s ∈ nodes ∧ t ∈ nodes.
Proof.
  destruct (loop_ends allLinks startId maxDepth) as (st & d & Hst & Hs & Hq).
  unfold Paths.findPath. rewrite Hst. intros [= <- <-].
  apply (Paths.inv_links _ _ _ _ _ Hs).
Qed.

Lemma findPath_links_witness :
  Paths.findPath citations "2" 1
  = Some ({[ "2"; "1"; "3" ]}, {[ "1-2"; "3-2" ]})
  ∧ ∀ id, id ∈ ({[ "1-2"; "3-2" ]} : gset string) →
      ∃ s t, (s, t) ∈ citations ∧ id = s +:+ "-" +:+ t ∧ s ≠ t
             ∧ s ∈ ({[ "2"; "1"; "3" ]} : gset string)
             ∧ t ∈ ({[ "2"; "1"; "3" ]} : gset string).
Proof.
  assert (Paths.findPath citations "2" 1
          = Some ({[ "2"; "1"; "3" ]}, {[ "1-2"; "3-2" ]})) as Hrun
    by (vm_compute; reflexivity).
  split; [exact Hrun|].
  exact (findPath_links citations "2" 1 _ _ Hrun).
Defined.

(** X27.  The loop of [findPath] takes at most two turns for each link and
    one more: with any number of turns from there on it gives the same
    result. *)
Theorem findPath_turns allLinks startId maxDepth fuel :
  2 * length allLinks + 1 ≤ fuel →
  (st ← Paths.loop fuel allLinks maxDepth (Paths.start startId);
   Some (Paths.pathNodes st, Paths.pathLinks st))
  = Paths.findPath allLinks startId maxDepth
  ∧ is_Some (Paths.findPath allLinks startId maxDepth).
Proof.
  intros Hfuel.
  destruct (loop_ends allLinks startId maxDepth) as (st & d & Hst & _).
  unfold Paths.findPath.
  rewrite (loop_more allLinks maxDepth _ fuel _ st Hst Hfuel), Hst.
  by split.
Qed.

Lemma findPath_turns_witness :
  (st ← Paths.loop 9 citations 2 (Paths.start "1");
   Some (Paths.pathNodes st, Paths.pathLinks st))
  = Paths.findPath citations "1" 2
  ∧ is_Some (Paths.findPath citations "1" 2).
Proof. apply (findPath_turns citations "1" 2 9). cbn. lia. Defined.

(** X28.  Highlighting is symmetric between two non-empty identifiers:
    one is among the nodes found from the other exactly when the other is
    among the nodes found from it. *)
Theorem findPath_symmetric allLinks u v maxDepth nodesU linksU nodesV linksV :
  Paths.findPath allLinks u maxDepth = Some (nodesU, linksU) →
  Paths.findPath allLinks v maxDepth = Some (nodesV, linksV) →
  u ≠ EmptyString → v ≠ EmptyString →
  v ∈ nodesU ↔ u ∈ nodesV.
Proof.
  intros HU HV Hune Hvne.
  rewrite (findPath_reach _ _ _ _ _ HU), (findPath_reach _ _ _ _ _ HV).
  split; intros (k & Hk & Hw); exists k; (split; [done|]);
    by apply within_back.
Qed.

Lemma findPath_symmetric_witness :
  "3" ∈ ({[ "1"; "2"; "3" ]} : gset string)
  ↔ "1" ∈ ({[ "3"; "2"; "4"; "1" ]} : gset string).
Proof.
  apply (findPath_symmetric citations "1" "3" 2
           _ {[ "1-2"; "3-2" ]} _ {[ "3-2"; "3-4"; "1-2" ]}).
  - vm_compute. reflexivity.
  - vm_compute. reflexivity.
  - done.
  - done.
Defined.

(** X29.  A greater depth finds at least the same nodes. *)
Theorem findPath_deeper allLinks startId d d' nodes links nodes' links' :
  Paths.findPath allLinks startId d = Some (nodes, links) →
  Paths.findPath allLinks startId d' = Some (nodes', links') →
  d ≤ d' → nodes ⊆ nodes'.
Proof.
  intros H H' Hd x.
  rewrite (findPath_reach _ _ _ _ _ H), (findPath_reach _ _ _ _ _ H').
  intros (k & Hk & Hw).
  exists k. split; [lia|done].
Qed.

Lemma findPath_deeper_witness :
  Paths.findPath citations "1" 1 = Some ({[ "1"; "2" ]}, {[ "1-2" ]})
  ∧ Paths.findPath citations "1" 2
    = Some ({[ "1"; "2"; "3" ]}, {[ "1-2"; "3-2" ]})
  ∧ ({[ "1"; "2" ]} : gset string) ⊆ ({[ "1"; "2"; "3" ]} : gset string).
Proof.
  assert (Paths.findPath citations "1" 1 = Some ({[ "1"; "2" ]}, {[ "1-2" ]}))
    as Hone by (vm_compute; reflexivity).
  assert (Paths.findPath citations "1" 2
          = Some ({[ "1"; "2"; "3" ]}, {[ "1-2"; "3-2" ]}))
    as Htwo by (vm_compute; reflexivity).
  split_and!; [exact Hone|exact Htwo|].
  apply (findPath_deeper citations "1" 1 2 _ _ _ _ Hone Htwo). lia.
Defined.
